(** * PageRank: the random-surfer transition model and the two estimators

    A shallow embedding of [pagerank.py] (functions [crawl],
    [transition_model], [sample_pagerank], [iterate_pagerank]) and the
    properties of it that the specification states.

    - A page name is a [string]; a set of links is a [gset string].
    - A Python [dict] is an association list in insertion order, so that
      iteration order (and with it the order of floating-point sums) is the
      one the interpreter uses.  A dict given from outside (the corpus) has
      pairwise distinct keys; theorems that need it assume [NoDup].
    - Python exceptions are the constructors of [exn]; a computation that
      may raise returns a [result].
    - Numbers: the program is written once, over an interface [Arith] of
      the arithmetic it uses.  Two instances are given.  IEEE-754 binary64
      ([PrimFloat]) is what CPython computes with: [1 / len(corpus)] and
      [rank / total_samples] divide two integers, so [iterate_pagerank]
      and the values of [sample_pagerank] are always binary64.  Exact
      rationals ([Q]) are what [transition_model] computes when it is
      given a [Fraction] as damping factor, and the idealisation in which
      the specification reasons.  Theorems about the two estimators are
      stated for every instance or evaluate the binary64 one; a lemma
      about exact arithmetic only says so.
    - The [while True] loop runs on fuel: [None] means "still running". *)

From Stdlib Require Import ZArith QArith Qabs Qround Lia Lqa Floats Uint63.
From stdpp Require Import base option list gmap strings.

Set Warnings "-inexact-float".
Local Open Scope Z_scope.

(** ** Exceptions and results *)

(** [KeyError], [IndexError], [ZeroDivisionError] and [ValueError] are the
    built-in exceptions the source and the [random] module can raise.
    [InvalidInput] is the error kind of the specification's taxonomy; no
    path of the source raises it. *)
Inductive exn : Type :=
  | KeyError
  | IndexError
  | ZeroDivisionError
  | ValueError
  | InvalidInput.

Inductive result (A : Type) : Type :=
  | Ok (a : A)
  | Raise (e : exn).
Arguments Ok {A} a.
Arguments Raise {A} e.

#[global] Instance result_ret : MRet result := λ A a, Ok a.
#[global] Instance result_bind : MBind result := λ A B f m,
  match m with
  | Ok a => f a
  | Raise e => Raise e
  end.

(** A [for] loop whose body may raise: the accumulator is threaded from
    left to right and the first exception ends the loop. *)
Fixpoint foldlM {A B : Type} (f : A → B → result A) (l : list B) (a : A)
  : result A :=
  match l with
  | [] => Ok a
  | x :: l' => a' ← f a x; foldlM f l' a'
  end.

(** [all(... for x in l)]: stops at the first [False]. *)
Fixpoint allM {B : Type} (f : B → result bool) (l : list B) : result bool :=
  match l with
  | [] => Ok true
  | x :: l' => b ← f x; if b : bool then allM f l' else Ok false
  end.

(** ** Dictionaries *)

Definition dict (V : Type) : Type := list (string * V).

Definition keys {V} (d : dict V) : list string := d.*1.
Definition values {V} (d : dict V) : list V := d.*2.

(** [d[k]] *)
Fixpoint dict_get {V} (d : dict V) (k : string) : result V :=
  match d with
  | [] => Raise KeyError
  | (k', v) :: d' => if bool_decide (k' = k) then Ok v else dict_get d' k
  end.

(** [d[k] = v]: an existing key keeps its position, a new key goes last. *)
Fixpoint dict_set {V} (d : dict V) (k : string) (v : V) : dict V :=
  match d with
  | [] => [(k, v)]
  | (k', v') :: d' =>
      if bool_decide (k' = k) then (k', v) :: d'
      else (k', v') :: dict_set d' k v
  end.

(** [{k: f(k) for k in ks}] *)
Definition dict_comp {V} (f : string → result V) (ks : list string)
  : result (dict V) :=
  foldlM (λ d k, v ← f k; Ok (dict_set d k v)) ks [].

(** ** Arithmetic *)

(** The operations of Python's [float] (and of [int] where it meets a
    float) that the program uses.  [tolerance] is the literal [0.001]. *)
Class Arith (F : Type) : Type := {
  of_int : Z → F;
  tolerance : F;
  fadd : F → F → F;
  fsub : F → F → F;
  fmul : F → F → F;
  fdiv : F → F → F;
  fabs : F → F;
  flt : F → F → bool;
  fle : F → F → bool;
  is_finite : F → bool
}.

Declare Scope py_scope.
Delimit Scope py_scope with py.
Infix "+" := fadd : py_scope.
Infix "-" := fsub : py_scope.
Infix "*" := fmul : py_scope.
Infix "/" := fdiv : py_scope.

(** Exact rational arithmetic: the arithmetic of [transition_model] on a
    [Fraction] damping factor, and the idealisation in which the
    specification argues about the estimators. *)
#[global] Instance Q_arith : Arith Q := {|
  of_int := inject_Z;
  tolerance := 1 # 1000;
  fadd := Qplus;
  fsub := Qminus;
  fmul := Qmult;
  fdiv := Qdiv;
  fabs := Qabs;
  flt := λ x y, match Qcompare x y with Lt => true | _ => false end;
  fle := λ x y, match Qcompare x y with Gt => false | _ => true end;
  is_finite := λ _, true
|}.

(** An integer as a binary64 value (exact below [2^53], which every count
    in this program is). *)
Definition float_of_int (z : Z) : float :=
  match z with
  | Z.neg _ => PrimFloat.opp (PrimFloat.of_uint63 (Uint63.of_Z (- z)))
  | _ => PrimFloat.of_uint63 (Uint63.of_Z z)
  end.

(** IEEE-754 binary64, round to nearest even: CPython's [float]. *)
#[global] Instance float_arith : Arith float := {|
  of_int := float_of_int;
  tolerance := 0.001%float;
  fadd := PrimFloat.add;
  fsub := PrimFloat.sub;
  fmul := PrimFloat.mul;
  fdiv := PrimFloat.div;
  fabs := PrimFloat.abs;
  flt := PrimFloat.ltb;
  fle := PrimFloat.leb;
  is_finite := λ x, negb (PrimFloat.is_nan x || PrimFloat.is_infinity x)
|}.

(** ** The [random] module *)

(** The source of randomness: the [k]-th draw of [_randbelow(n)] and of
    [random()].  Every theorem quantifies over all sources. *)
Record RandomSource (F : Type) : Type := {
  randbelow : nat → nat → nat;
  random : nat → F
}.
Arguments randbelow {F} _ _ _.
Arguments random {F} _ _.

Section Program.
Context {F : Type} `{Arith F}.
Local Open Scope py_scope.

(** [x / n] for an [int] divisor [n]; every division of the source has an
    integer divisor ([len(..)] or a sum of counters). *)
Definition div_int (x : F) (n : Z) : result F :=
  if bool_decide (n = 0%Z) then Raise ZeroDivisionError
  else Ok (x / of_int n).

(** [a / b] for two [int]s (true division). *)
Definition int_truediv (a b : Z) : result F := div_int (of_int a) b.

(** [random.choice(seq)]: [seq[_randbelow(len(seq))]], [IndexError] on an
    empty sequence.  The second component is the number of draws used. *)
Definition random_choice {A} (rs : RandomSource F) (k : nat) (seq : list A)
  : result (A * nat) :=
  match seq !! (randbelow rs k (length seq) `mod` length seq)%nat with
  | Some x => Ok (x, S k)
  | None => Raise IndexError
  end.

(** [itertools.accumulate(weights)] *)
Fixpoint accumulate_from (acc : F) (ws : list F) : list F :=
  match ws with
  | [] => []
  | w :: ws' => (acc + w) :: accumulate_from (acc + w) ws'
  end.

Definition accumulate (ws : list F) : list F :=
  match ws with
  | [] => []
  | w :: ws' => w :: accumulate_from w ws'
  end.

(** [bisect.bisect(a, x, 0, hi)] on a sorted [a]: the first index below
    [hi] whose entry exceeds [x], and [hi] when there is none. *)
Fixpoint bisect (a : list F) (x : F) (hi : nat) : nat :=
  match hi, a with
  | S hi', c :: a' => if flt x c then O else S (bisect a' x hi')
  | _, _ => O
  end.

(** [random.choices(population, weights=weights)[0]] *)
Definition random_choices {A} (rs : RandomSource F) (k : nat)
    (population : list A) (weights : list F) : result (A * nat) :=
  let cum_weights := accumulate weights in
  if negb (bool_decide (length cum_weights = length population))
  then Raise ValueError
  else
    match last cum_weights with
    | None => Raise IndexError
    | Some t =>
        let total := t + of_int 0 in
        if fle total (of_int 0) then Raise ValueError
        else if negb (is_finite total) then Raise ValueError
        else
          let hi := (length population - 1)%nat in
          match population !! bisect cum_weights (random rs k * total) hi with
          | Some x => Ok (x, S k)
          | None => Raise IndexError
          end
    end.

(** ** [transition_model] (lines 51-77) *)

Definition transition_model (corpus : dict (gset string)) (page : string)
    (damping_factor : F) : result (dict F) :=
  let number_pgs := Z.of_nat (length corpus) in
  links ← dict_get corpus page;
  lnk_prob ←
    (if bool_decide (0 < Z.of_nat (size links))%Z
     then div_int damping_factor (Z.of_nat (size links))
     else Ok (of_int 0));
  foldlM
    (λ probability_distribution p,
       rndm_prob ← div_int (of_int 1 - damping_factor) number_pgs;
       links' ← dict_get corpus page;
       let sum_prob := if bool_decide (p ∈ links') then lnk_prob else of_int 0 in
       let sum_prob := sum_prob + rndm_prob in
       Ok (dict_set probability_distribution p sum_prob))
    (keys corpus) [].

(** ** [sample_pagerank] (lines 81-106) *)

(** One round of the [for _ in range(n)] loop; the state is the counter
    dictionary, the current page and the number of random draws made. *)
Definition sample_step (rs : RandomSource F) (corpus : dict (gset string))
    (damping_factor : F) (st : dict Z * string * nat)
  : result (dict Z * string * nat) :=
  let '(Pge_Rnk, current_page, k) := st in
  c ← dict_get Pge_Rnk current_page;
  let Pge_Rnk := dict_set Pge_Rnk current_page (c + 1)%Z in
  probabilities ← transition_model corpus current_page damping_factor;
  '(next_page, k') ←
    random_choices rs k (keys probabilities) (values probabilities);
  Ok (Pge_Rnk, next_page, k').

Fixpoint sample_loop (rounds : nat) (rs : RandomSource F)
    (corpus : dict (gset string)) (damping_factor : F)
    (st : dict Z * string * nat) : result (dict Z * string * nat) :=
  match rounds with
  | O => Ok st
  | S rounds' =>
      st' ← sample_step rs corpus damping_factor st;
      sample_loop rounds' rs corpus damping_factor st'
  end.

Definition sample_pagerank (rs : RandomSource F) (corpus : dict (gset string))
    (damping_factor : F) (n : Z) : result (dict F) :=
  Pge_Rnk ← dict_comp (λ _, Ok 0%Z) (keys corpus);
  '(current_page, k) ← random_choice rs O (keys corpus);
  '(Pge_Rnk, _, _) ←
    sample_loop (Z.to_nat n) rs corpus damping_factor (Pge_Rnk, current_page, k);
  let total_samples := foldl Z.add 0%Z (values Pge_Rnk) in
  foldlM (λ d '(page, rank), v ← int_truediv rank total_samples;
                             Ok (dict_set d page v))
         Pge_Rnk [].

(** ** [iterate_pagerank] (lines 110-137) *)

(** Lines 124-129: the dictionary [new_Pge_Rnk] of one round. *)
Definition update_rank (corpus : dict (gset string)) (damping_factor : F)
    (page_rank : dict F) : result (dict F) :=
  new_Pge_Rnk ←
    dict_comp (λ _, div_int (of_int 1 - damping_factor)
                            (Z.of_nat (length corpus)))
              (keys corpus);
  foldlM
    (λ new_Pge_Rnk page,
       foldlM
         (λ new_Pge_Rnk '(lnkng_page, Lnks),
            if bool_decide (page ∈ (Lnks : gset string)) then
              cur ← dict_get new_Pge_Rnk page;
              r ← dict_get page_rank lnkng_page;
              q ← div_int r (Z.of_nat (size Lnks));
              Ok (dict_set new_Pge_Rnk page (cur + damping_factor * q))
            else Ok new_Pge_Rnk)
         corpus new_Pge_Rnk)
    (keys corpus) new_Pge_Rnk.

(** Line 132: the convergence test. *)
Definition converged (corpus : dict (gset string))
    (new_Pge_Rnk page_rank : dict F) : result bool :=
  allM (λ page, a ← dict_get new_Pge_Rnk page;
                b ← dict_get page_rank page;
                Ok (flt (fabs (a - b)) tolerance))
       (keys corpus).

(** Lines 123-137: the loop.  It returns [page_rank], the mapping the
    last round started from. *)
Fixpoint iterate_loop (fuel : nat) (corpus : dict (gset string))
    (damping_factor : F) (page_rank : dict F) : option (result (dict F)) :=
  match fuel with
  | O => None
  | S fuel' =>
      match update_rank corpus damping_factor page_rank with
      | Raise e => Some (Raise e)
      | Ok new_Pge_Rnk =>
          match converged corpus new_Pge_Rnk page_rank with
          | Raise e => Some (Raise e)
          | Ok true => Some (Ok page_rank)
          | Ok false => iterate_loop fuel' corpus damping_factor new_Pge_Rnk
          end
      end
  end.

(** Line 120: the initial mapping. *)
Definition initial_rank (corpus : dict (gset string)) : result (dict F) :=
  dict_comp (λ _, int_truediv 1 (Z.of_nat (length corpus))) (keys corpus).

Definition iterate_pagerank (fuel : nat) (corpus : dict (gset string))
    (damping_factor : F) : option (result (dict F)) :=
  match initial_rank corpus with
  | Raise e => Some (Raise e)
  | Ok page_rank => iterate_loop fuel corpus damping_factor page_rank
  end.

End Program.

(** ** Notions used to state the properties *)

(** Python's [sum(values)]: a left fold from the integer [0]. *)
Definition fsum {F} `{Arith F} (l : list F) : F := foldl fadd (of_int 0) l.

(** The entry [transition_model] computes for node [p], when the current
    page has the links [links] and the corpus has [N] pages. *)
Definition transition_value {F} `{Arith F} (links : gset string) (N : nat)
    (d : F) (p : string) : F :=
  ((if bool_decide (p ∈ links)
    then d / of_int (Z.of_nat (size links)) else of_int 0)
   + (of_int 1 - d) / of_int (Z.of_nat N))%py.

(** [page_rank[i]] as a total function (a missing key reads as [0]). *)
Definition rank_of {F} `{Arith F} (page_rank : dict F) (i : string) : F :=
  match dict_get page_rank i with
  | Ok r => r
  | Raise _ => of_int 0
  end.

(** The accumulation of lines 127-129 for one [page], from the value
    [acc] already stored for it. *)
Definition accumulate_links {F} `{Arith F} (d : F) (page_rank : dict F)
    (page : string) (entries : dict (gset string)) (acc : F) : F :=
  foldl (λ acc '(lnkng_page, Lnks),
           if bool_decide (page ∈ (Lnks : gset string))
           then (acc + d * (rank_of page_rank lnkng_page
                            / of_int (Z.of_nat (size Lnks))))%py
           else acc)
        acc entries.

(** The entry one round of [iterate_pagerank] computes for [page]. *)
Definition update_value {F} `{Arith F} (corpus : dict (gset string)) (d : F)
    (page_rank : dict F) (page : string) : F :=
  accumulate_links d page_rank page corpus
    ((of_int 1 - d) / of_int (Z.of_nat (length corpus)))%py.

(** The dictionary with the entry [g k] for every key [k] of [ks]. *)
Definition table {V} (g : string → V) (ks : list string) : dict V :=
  map (λ k, (k, g k)) ks.

(** [k] rounds of the update, without the convergence test. *)
Fixpoint nth_iterate {F} `{Arith F} (k : nat) (corpus : dict (gset string))
    (d : F) (page_rank : dict F) : result (dict F) :=
  match k with
  | O => Ok page_rank
  | S k' => new ← update_rank corpus d page_rank; nth_iterate k' corpus d new
  end.

(** How many pages of [ks] are in the set [L]. *)
Definition count_links (L : gset string) (ks : list string) : nat :=
  length (filter (λ p, p ∈ L) ks).

Definition Qnat (n : nat) : Q := inject_Z (Z.of_nat n).
Definition Qsum (l : list Q) : Q := foldr Qplus 0%Q l.

(** The share of rank that [page] receives over its inbound links. *)
Definition link_sum (entries : dict (gset string)) (x : string → Q)
    (page : string) : Q :=
  Qsum (map (λ '(i, L), if bool_decide (page ∈ (L : gset string))
                        then (x i / Qnat (size L))%Q else 0%Q)
            entries).

(** One round of the update on rank vectors, as the code computes it. *)
Definition update_fun {F} `{Arith F} (corpus : dict (gset string)) (d : F)
    (x : string → F) : string → F :=
  λ p, update_value corpus d (table x (keys corpus)) p.

(** The rank vector after [k] rounds. *)
Fixpoint iterate_fun {F} `{Arith F} (k : nat) (corpus : dict (gset string))
    (d : F) (x : string → F) : string → F :=
  match k with
  | O => x
  | S k' => iterate_fun k' corpus d (update_fun corpus d x)
  end.

(** The convergence test of line 132 on rank vectors. *)
Definition close_enough {F} `{Arith F} (ks : list string)
    (y x : string → F) : bool :=
  forallb (λ p, flt (fabs (y p - x p)%py) tolerance) ks.

(** The vector that is [v] at [p] and [g] elsewhere. *)
Definition fn_set {V} (g : string → V) (p : string) (v : V) : string → V :=
  λ k, if bool_decide (k = p) then v else g k.

(** [d] to the power [k]. *)
Fixpoint Qpow (d : Q) (k : nat) : Q :=
  match k with
  | O => 1%Q
  | S k' => (d * Qpow d k')%Q
  end.

(** The sum of the entry-wise distances of two rank vectors. *)
Definition dist (ks : list string) (x y : string → Q) : Q :=
  Qsum (map (λ p, Qabs (x p - y p)) ks).

(** ** Graphs and random sources of the scenarios *)

Definition single_node : dict (gset string) := [("A"%string, ∅)].

Definition dead_end_graph : dict (gset string) :=
  [("A"%string, {["B"%string; "C"%string]});
   ("B"%string, ∅);
   ("C"%string, {["A"%string]})].

Definition three_cycle : dict (gset string) :=
  [("A"%string, {["B"%string]});
   ("B"%string, {["C"%string]});
   ("C"%string, {["A"%string]})].




Definition first_draw_float : RandomSource float :=
  {| randbelow := λ _ _, O; random := λ _, 0.5%float |}.

(** ** Proof automation *)

(** Replace the rational [a] by [b], equal as polynomials. *)
Ltac qreplace a b :=
  let E := fresh "E" in
  assert (Qeq a b) as E by ring; rewrite E; clear E.

(** ** [crawl] (lines 24-48) *)

(** [s.endswith(suffix)] *)
Definition endswith (s suffix : string) : bool :=
  bool_decide (String.list_ascii_of_string suffix
               `suffix_of` String.list_ascii_of_string s).

(** The directory is what [os.listdir] and [open(..).read()] show of it
    when they succeed: the file names in listing order, each with its
    contents.  The exceptions of listing, opening and reading (a missing
    directory, a directory named [x.html], bytes that do not decode) are
    outside the model, so the theorems speak of the corpus [crawl] returns.
    [findall] stands for [re.findall] with the pattern of line 38; the
    theorems hold for every such function. *)

(** The body of the first loop (lines 33-39). *)
Definition scan_file (findall : string → list string)
    (pages : dict (gset string)) (file : string * string)
  : dict (gset string) :=
  let '(filename, contents) := file in
  if negb (endswith filename ".html") then pages
  else
    let links := findall contents in
    dict_set pages filename (list_to_set links ∖ {[filename]}).

(** The body of the second loop (lines 42-46). *)
Definition prune_links (pages : dict (gset string)) (filename : string)
  : result (dict (gset string)) :=
  links ← dict_get pages filename;
  Ok (dict_set pages filename (filter (λ link, link ∈ keys pages) links)).

Definition crawl (findall : string → list string)
    (directory : list (string * string)) : result (dict (gset string)) :=
  let pages := foldl (scan_file findall) [] directory in
  foldlM prune_links (keys pages) pages.

(** [pages[f]] as a total function (a missing key reads as the empty
    set). *)
Definition links_of (pages : dict (gset string)) (f : string) : gset string :=
  match dict_get pages f with
  | Ok L => L
  | Raise _ => ∅
  end.

(** A toy link extractor for the examples: the whole contents is one
    link. *)
Definition whole_contents (contents : string) : list string := [contents].

Definition small_site : list (string * string) :=
  [("1.html"%string, "2.html"%string);
   ("notes.txt"%string, "1.html"%string);
   ("2.html"%string, "2.html"%string);
   ("3.html"%string, "missing.html"%string)].

(** The recursive sum of integers ([sum] over the counters). *)
Definition Zsum (l : list Z) : Z := foldr Z.add 0%Z l.

(** * Dictionaries and tables *)

Section Dictionaries.
Local Open Scope Z_scope.

Section DictFacts.
Context {V : Type}.
Implicit Types (d : dict V) (k p : string) (v : V) (g : string → V).

Lemma dict_set_fresh d k v :
  k ∉ keys d → dict_set d k v = d ++ [(k, v)].
Proof.
  induction d as [|[k' v'] d IH]; simpl; [done|].
  rewrite not_elem_of_cons. intros [Hne Hnin].
  rewrite bool_decide_eq_false_2 by done. by rewrite IH.
Qed.

Lemma dict_get_tabulate (g : string → V) (ks : list string) k :
  k ∈ ks → dict_get (table g ks) k = Ok (g k).
Proof.
  induction ks as [|k' ks IH]; simpl.
  - by intros ?%elem_of_nil.
  - intros Hin. case_bool_decide as Hk; [by subst|].
    apply elem_of_cons in Hin as [->|Hin]; [done|]. by apply IH.
Qed.

Lemma dict_get_absent d k : k ∉ keys d → dict_get d k = Raise KeyError.
Proof.
  induction d as [|[k' v'] d IH]; simpl; [done|].
  rewrite not_elem_of_cons. intros [Hne Hnin].
  rewrite bool_decide_eq_false_2 by done. by apply IH.
Qed.

Lemma dict_get_Ok_elem d k v : dict_get d k = Ok v → (k, v) ∈ d.
Proof.
  induction d as [|[k' v'] d IH]; simpl; [done|].
  case_bool_decide; intros Hg.
  - simplify_eq. apply elem_of_cons; by left.
  - apply elem_of_cons; right; by apply IH.
Qed.

Lemma dict_get_Ok_key d k v : dict_get d k = Ok v → k ∈ keys d.
Proof.
  intros Hg%dict_get_Ok_elem. unfold keys.
  apply list_elem_of_fmap. by exists (k, v).
Qed.

Lemma keys_tabulate (g : string → V) (ks : list string) :
  keys (table g ks) = ks.
Proof. unfold keys. induction ks; simpl; [done|]. by f_equal. Qed.

(** A loop that stores one computed value per key builds the table of the
    values, in the order of the keys. *)
Lemma foldlM_dict_set (step : dict V → string → result (dict V))
    (g : string → V) (ks : list string) d :
  NoDup (keys d ++ ks) →
  (∀ d' k, k ∈ ks → step d' k = Ok (dict_set d' k (g k))) →
  foldlM step ks d = Ok (d ++ table g ks).
Proof.
  revert d. induction ks as [|k ks IH]; intros d Hnd Hf; simpl.
  - by rewrite app_nil_r.
  - rewrite (Hf d k) by (apply elem_of_cons; by left). simpl.
    apply NoDup_app in Hnd as (Hd & Hdis & Hks).
    apply NoDup_cons in Hks as [Hk Hks].
    assert (k ∉ keys d) as Hfresh.
    { intros Hin. apply (Hdis k Hin). apply elem_of_cons; by left. }
    rewrite dict_set_fresh by done.
    rewrite IH.
    + by rewrite <- app_assoc.
    + unfold keys in *. rewrite fmap_app. simpl.
      rewrite <- app_assoc. simpl.
      apply NoDup_app. split_and!; [done| |by apply NoDup_cons].
      intros x Hx Hx'. apply elem_of_cons in Hx' as [->|Hx']; [done|].
      apply (Hdis x Hx). apply elem_of_cons; by right.
    + intros d' k' Hk'. apply Hf. apply elem_of_cons; by right.
Qed.

Lemma dict_comp_tabulate (f : string → result V) (g : string → V)
    (ks : list string) :
  NoDup ks →
  (∀ k, k ∈ ks → f k = Ok (g k)) →
  dict_comp f ks = Ok (table g ks).
Proof.
  intros Hnd Hf. unfold dict_comp.
  rewrite (foldlM_dict_set _ g); [done|done|].
  intros d' k Hk. by rewrite (Hf k Hk).
Qed.

Lemma dict_get_nonempty d k v :
  dict_get d k = Ok v → (0 < length d)%nat.
Proof. destruct d; simpl; [done|lia]. Qed.

Lemma keys_nonempty_length d k :
  k ∈ keys d → Z.of_nat (length d) ≠ 0.
Proof. destruct d; simpl; [by intros ?%elem_of_nil|lia]. Qed.

Lemma dict_get_present d k : k ∈ keys d → ∃ v, dict_get d k = Ok v.
Proof.
  induction d as [|[k' v'] d IH]; simpl.
  - by intros ?%elem_of_nil.
  - intros Hin. case_bool_decide; [by eexists|].
    apply elem_of_cons in Hin as [->|Hin]; [done|]. by apply IH.
Qed.

Lemma dict_set_same d k v : dict_get d k = Ok v → dict_set d k v = d.
Proof.
  induction d as [|[k' v'] d IH]; simpl; [done|].
  case_bool_decide; intros Hg; [by simplify_eq|]. by rewrite IH.
Qed.

Lemma dict_set_set d k v v' :
  k ∈ keys d → dict_set (dict_set d k v) k v' = dict_set d k v'.
Proof.
  induction d as [|[k' w] d IH]; simpl.
  - by intros ?%elem_of_nil.
  - intros Hin. case_bool_decide as Hk; simpl.
    + by rewrite bool_decide_eq_true_2.
    + rewrite bool_decide_eq_false_2 by done.
      apply elem_of_cons in Hin as [->|Hin]; [done|]. by rewrite IH.
Qed.

Lemma dict_get_set d k v : k ∈ keys d → dict_get (dict_set d k v) k = Ok v.
Proof.
  induction d as [|[k' w] d IH]; simpl.
  - by intros ?%elem_of_nil.
  - intros Hin. case_bool_decide as Hk; simpl.
    + by rewrite bool_decide_eq_true_2.
    + rewrite bool_decide_eq_false_2 by done.
      apply elem_of_cons in Hin as [->|Hin]; [done|]. by apply IH.
Qed.

Lemma table_ext g g' (ks : list string) :
  (∀ k, k ∈ ks → g k = g' k) → table g ks = table g' ks.
Proof.
  intros Hg. unfold table. apply map_ext_in. intros k Hk%list_elem_of_In.
  by rewrite Hg.
Qed.

Lemma dict_set_table g (ks : list string) p v :
  NoDup ks → p ∈ ks → dict_set (table g ks) p v = table (fn_set g p v) ks.
Proof.
  induction ks as [|k ks IH]; simpl.
  - by intros _ ?%elem_of_nil.
  - intros [Hk Hnd]%NoDup_cons Hin. unfold fn_set at 1.
    case_bool_decide as Hkp.
    + subst k. f_equal. apply table_ext. intros k' Hk'. unfold fn_set.
      rewrite bool_decide_eq_false_2; [done|]. by intros ->.
    + apply elem_of_cons in Hin as [->|Hin]; [done|]. by rewrite IH.
Qed.

End DictFacts.

End Dictionaries.

(** * Counting links and summing rationals *)

Section Counting.
Local Open Scope Z_scope.

Lemma size_pos_of_elem (p : string) (L : gset string) :
  p ∈ L → (0 < size L)%nat.
Proof.
  intros Hp. destruct (decide (size L = 0%nat)) as [Hz|]; [|lia].
  apply size_empty_inv in Hz. set_solver.
Qed.

(** The pages of a duplicate-free list that lie in [L] are at most
    [size L], and exactly [size L] when all of [L] is in the list. *)
Lemma count_links_le (L : gset string) ks :
  NoDup ks → (count_links L ks ≤ size L)%nat.
Proof.
  intros Hnd. unfold count_links.
  rewrite <- (size_list_to_set (C := gset string)) by by apply NoDup_filter.
  apply subseteq_size. intros p.
  rewrite elem_of_list_to_set, list_elem_of_filter. tauto.
Qed.

Lemma count_links_eq (L : gset string) ks :
  NoDup ks → (∀ p, p ∈ L → p ∈ ks) → count_links L ks = size L.
Proof.
  intros Hnd Hsub. unfold count_links.
  rewrite <- (size_list_to_set (C := gset string)) by by apply NoDup_filter.
  f_equal. apply set_eq. intros p.
  rewrite elem_of_list_to_set, list_elem_of_filter. split; [tauto|auto].
Qed.

Lemma count_links_cons (L : gset string) p ks :
  count_links L (p :: ks)
  = ((if bool_decide (p ∈ L) then 1 else 0) + count_links L ks)%nat.
Proof.
  unfold count_links. rewrite filter_cons.
  case_bool_decide; destruct (decide (p ∈ L)); simpl; done.
Qed.

Local Open Scope Q_scope.

Lemma Qnat_S n : Qnat (S n) == Qnat n + 1.
Proof.
  unfold Qnat. rewrite Nat2Z.inj_succ, <- Z.add_1_r, inject_Z_plus.
  reflexivity.
Qed.

Lemma Qnat_plus n m : Qnat (n + m) == Qnat n + Qnat m.
Proof. unfold Qnat. rewrite Nat2Z.inj_add, inject_Z_plus. reflexivity. Qed.

Lemma Qnat_nonneg n : 0 <= Qnat n.
Proof. unfold Qnat. change 0 with (inject_Z 0). rewrite <- Zle_Qle. lia. Qed.

Lemma Qnat_pos n : (0 < n)%nat → 0 < Qnat n.
Proof.
  intros Hn. unfold Qnat. change 0 with (inject_Z 0). rewrite <- Zlt_Qlt.
  lia.
Qed.

Lemma Qnat_le n m : (n ≤ m)%nat → Qnat n <= Qnat m.
Proof. intros Hn. unfold Qnat. rewrite <- Zle_Qle. lia. Qed.

(** Python's left-to-right [sum] agrees with the recursive sum. *)
Lemma foldl_Qplus_shift (l : list Q) (a : Q) :
  foldl Qplus a l == a + Qsum l.
Proof.
  unfold Qsum. revert a. induction l as [|x l IH]; intros a; simpl.
  - lra.
  - rewrite IH. lra.
Qed.

Lemma fsum_Qsum (l : list Q) : fsum l == Qsum l.
Proof.
  unfold fsum. rewrite foldl_Qplus_shift. simpl. unfold inject_Z. lra.
Qed.

Lemma Qsum_transition_values (L : gset string) (a b : Q) ks :
  Qsum (map (λ p, (if bool_decide (p ∈ L) then a else 0) + b) ks)
  == Qnat (count_links L ks) * a + Qnat (length ks) * b.
Proof.
  induction ks as [|p ks IH].
  - unfold Qsum, count_links. simpl. change (Qnat 0) with 0. ring.
  - rewrite count_links_cons. simpl length. rewrite Qnat_S, Qnat_plus.
    unfold Qsum in *. simpl. rewrite IH.
    case_bool_decide;
      [change (Qnat 1) with 1 | change (Qnat 0) with 0]; ring.
Qed.

End Counting.

(** * The transition model *)

Section TransitionModel.
Local Open Scope Z_scope.
Local Open Scope string_scope.

Section TransitionFacts.
Context {F : Type} `{Arith F}.
Local Open Scope py_scope.

Lemma div_int_nonzero (x : F) (n : Z) :
  n ≠ 0%Z → div_int x n = Ok (x / of_int n).
Proof. intros Hn. unfold div_int. by rewrite bool_decide_eq_false_2. Qed.

Lemma transition_model_table corpus page (d : F) links :
  NoDup (keys corpus) →
  dict_get corpus page = Ok links →
  transition_model corpus page d
  = Ok (table (transition_value links (length corpus) d) (keys corpus)).
Proof.
  intros Hnd Hget. unfold transition_model. rewrite Hget. simpl.
  pose proof (dict_get_nonempty _ _ _ Hget) as HN.
  set (lp := if bool_decide (0 < Z.of_nat (size links))%Z then _ else _).
  assert (∃ l, lp = Ok l ∧
            ∀ p, p ∈ links → l = d / of_int (Z.of_nat (size links)))
    as (l & -> & Hl).
  { subst lp. case_bool_decide as Hs.
    - rewrite div_int_nonzero by lia. eauto.
    - eexists; split; [done|]. intros p Hp%size_pos_of_elem. lia. }
  simpl.
  rewrite (foldlM_dict_set _ (transition_value links (length corpus) d));
    [done|done|].
  intros d' p Hp. rewrite div_int_nonzero by lia. simpl.
  do 2 f_equal. unfold transition_value.
  case_bool_decide as Hin; [|done]. by rewrite (Hl p Hin).
Qed.

End TransitionFacts.

Local Open Scope Q_scope.

Lemma transition_value_Q (L : gset string) (N : nat) (d : Q) (p : string) :
  transition_value L N d p
  == if bool_decide (p ∈ L) then d / Qnat (size L) + (1 - d) / Qnat N
     else (1 - d) / Qnat N.
Proof.
  unfold transition_value, Qnat. cbn [fadd fsub fdiv of_int Q_arith].
  change (inject_Z 1) with 1.
  case_bool_decide; [reflexivity|]. change (inject_Z 0) with 0. apply Qplus_0_l.
Qed.




Lemma values_tabulate {V} (g : string → V) (ks : list string) :
  values (table g ks) = map g ks.
Proof. unfold values. induction ks; simpl; [done|]. by f_equal. Qed.

Lemma Qsum_transition_table (L : gset string) (N : nat) (d : Q) ks :
  Qsum (map (transition_value L N d) ks)
  == Qnat (count_links L ks) * (d / Qnat (size L))
     + Qnat (length ks) * ((1 - d) / Qnat N).
Proof. exact (Qsum_transition_values L _ _ ks). Qed.


(** On a page with links, all of them pages of the corpus, the values sum
    to [1] and each is positive when [0 <= d < 1]. *)
Lemma transition_model_distribution (corpus : dict (gset string))
    (page : string) (d : Q) (L : gset string) :
  NoDup (keys corpus) →
  dict_get corpus page = Ok L →
  L ≠ ∅ →
  (∀ p, p ∈ L → p ∈ keys corpus) →
  0 <= d < 1 →
  ∃ pd, transition_model corpus page d = Ok pd ∧
    fsum (values pd) == 1 ∧
    ∀ q v, dict_get pd q = Ok v → 0 < v.
Proof.
  intros Hnd Hget HL Hsub Hd. eexists.
  split; [by apply transition_model_table|].
  pose proof (dict_get_nonempty _ _ _ Hget) as HN%Qnat_pos.
  assert (0 < Qnat (size L)) as HsL.
  { apply Qnat_pos. destruct (decide (size L = 0%nat)) as [Hz|]; [|lia].
    by apply size_empty_inv, leibniz_equiv in Hz. }
  split.
  - rewrite fsum_Qsum, values_tabulate, Qsum_transition_table.
    rewrite count_links_eq by done.
    unfold keys. rewrite length_fmap.
    field. lra.
  - intros q v Hv. pose proof (dict_get_Ok_key _ _ _ Hv) as Hq.
    rewrite keys_tabulate in Hq.
    rewrite dict_get_tabulate in Hv by done. injection Hv as <-.
    change (0 < transition_value L (length corpus) d q).
    rewrite transition_value_Q.
    assert (0 < (1 - d) / Qnat (length corpus)).
    { apply Qlt_shift_div_l; lra. }
    case_bool_decide; [|done].
    assert (0 <= d / Qnat (size L)).
    { apply Qle_shift_div_l; lra. }
    lra.
Qed.

(** C1.  On the single-node graph [{A: {}}] with damping factor 0.85 the
    page [A] has no outbound link, and [transition_model] gives [A] the
    probability [(1 - 0.85) / 1], which is 0.15000000000000002 in binary64
    and 3/20 in exact arithmetic, where the uniform distribution gives
    [1/N = 1]. *)
Theorem transition_model_dead_end_not_uniform :
  transition_model single_node "A" 0.85%float
    = Ok [("A", 0.15000000000000002%float)]
  ∧ transition_model single_node "A" (85 # 100)
    = Ok [("A", 0 + (1 - (85 # 100)) / 1)]
  ∧ ¬ 0 + (1 - (85 # 100)) / 1 == 1 / Qnat (length single_node).
Proof. split; [|split]; [vm_compute; reflexivity ..|]. by vm_compute. Qed.

(** C4.  On the same input the values of the returned distribution sum to
    0.15000000000000002 (binary64) and to [1 - 0.85] (exact arithmetic):
    the sum is not within 1e-9 of 1.0. *)
Theorem transition_model_dead_end_sum :
  (∃ pd, transition_model single_node "A" 0.85%float = Ok pd
      ∧ fsum (values pd) = 0.15000000000000002%float
      ∧ flt (fabs (fsub (fsum (values pd)) 1%float)) 1e-9%float = false)
  ∧ (∃ pd, transition_model single_node "A" (85 # 100) = Ok pd
      ∧ fsum (values pd) == 15 # 100
      ∧ ¬ Qabs (fsum (values pd) - 1) < 1 # 1000000000).
Proof.
  split; eexists; (split; [vm_compute; reflexivity|]); by vm_compute.
Qed.

End TransitionModel.

(** * The sampling estimator *)

Section Sampling.
Local Open Scope string_scope.
Local Open Scope Z_scope.

Section SamplingFacts.
Context {F : Type} `{Arith F}.

Lemma random_choice_empty {A} (rs : RandomSource F) (k : nat) :
  random_choice (A := A) rs k [] = Raise IndexError.
Proof. reflexivity. Qed.

Lemma random_choice_nonempty {A} (rs : RandomSource F) (k : nat)
    (seq : list A) :
  seq ≠ [] → ∃ x, random_choice rs k seq = Ok (x, S k) ∧ x ∈ seq.
Proof.
  intros Hne. unfold random_choice.
  assert (length seq ≠ 0%nat) as Hlen by (by destruct seq).
  pose proof (Nat.mod_upper_bound (randbelow rs k (length seq)) _ Hlen) as Hlt.
  apply lookup_lt_is_Some_2 in Hlt as [x Hx]. rewrite Hx.
  exists x. split; [done|]. by eapply list_elem_of_lookup_2.
Qed.

(** The counters start as a dictionary of zeros, with an entry as soon as
    the corpus has a page. *)
Lemma zero_counters_from (ks : list string) (d : dict Z) :
  Forall (λ kv, kv.2 = 0) d →
  ∃ d', foldlM (λ d k, v ← Ok 0; Ok (dict_set d k v)) ks d = Ok d'
        ∧ Forall (λ kv, kv.2 = 0) d'
        ∧ (d ≠ [] ∨ ks ≠ [] → d' ≠ []).
Proof.
  revert d. induction ks as [|k ks IH]; intros d Hd; simpl.
  - exists d. split_and!; [done|done|]. by intros [?|?].
  - destruct (IH (dict_set d k 0)) as (d' & Hrun & Hz & Hne).
    { clear IH. induction d as [|[k' v'] d IHd]; simpl.
      - by repeat constructor.
      - apply Forall_cons in Hd as [Hv Hd].
        case_bool_decide; constructor; auto. }
    exists d'. split_and!; [done|done|].
    intros _. apply Hne. left. destruct d as [|[k' v'] d]; simpl; [done|].
    by case_bool_decide.
Qed.

Lemma sum_zero_counters (vs : list Z) (a : Z) :
  Forall (λ v, v = 0) vs → foldl Z.add a vs = a.
Proof.
  revert a. induction vs as [|v vs IH]; intros a Hvs; simpl; [done|].
  apply Forall_cons in Hvs as [-> Hvs]. rewrite IH by done. lia.
Qed.

(** X19.  In either arithmetic, on a non-empty corpus a sample count
    [n <= 0] makes [sample_pagerank] raise [ZeroDivisionError]: no round of
    sampling runs and the normalisation divides [0] by [0]. *)
Lemma sample_pagerank_no_rounds (rs : RandomSource F)
    (corpus : dict (gset string)) (d : F) (n : Z) :
  corpus ≠ [] → n ≤ 0 →
  sample_pagerank rs corpus d n = Raise ZeroDivisionError.
Proof.
  intros Hne Hn. unfold sample_pagerank, dict_comp.
  assert (keys corpus ≠ []) as Hk by (by destruct corpus).
  destruct (zero_counters_from (keys corpus) []) as (cnt & -> & Hz & Hcnt);
    [constructor|].
  simpl.
  destruct (random_choice_nonempty rs O (keys corpus) Hk) as (p & -> & _).
  simpl. replace (Z.to_nat n) with O by lia. simpl.
  rewrite sum_zero_counters
    by (unfold values; apply Forall_fmap; eapply Forall_impl; eauto).
  destruct cnt as [|[k v] cnt]; [naive_solver|]. simpl.
  done.
Qed.

End SamplingFacts.

(** C7 (as amended).  On the empty graph [sample_pagerank] raises
    [IndexError], from [random.choice] on the empty list of keys, for every
    damping factor, sample count and random source, in either arithmetic;
    no mapping is returned.  The source has no validation step and no
    [InvalidInput] error. *)
Theorem sample_pagerank_empty_graph {F : Type} `{Arith F}
    (rs : RandomSource F) (damping_factor : F) (n : Z) :
  sample_pagerank rs [] damping_factor n = Raise IndexError.
Proof. reflexivity. Qed.

(** C7 as stated fails: the error raised on the empty graph is
    [IndexError], not [InvalidInput]. *)
Lemma sample_pagerank_empty_graph_not_InvalidInput :
  sample_pagerank first_draw_float [] 0.85%float 10000 = Raise IndexError
  ∧ sample_pagerank first_draw_float [] 0.85%float 10000 ≠ Raise InvalidInput.
Proof. split; [by vm_compute|]. vm_compute. discriminate. Qed.

(** C8 (as amended).  In either arithmetic, for every non-empty corpus,
    every sample count [n <= 0], every damping factor and every random
    source, [sample_pagerank] raises [ZeroDivisionError]: no round of
    sampling runs, the counters sum to [0] and the normalisation divides
    [0] by [0].  The source checks nothing: it neither raises
    [InvalidInput] nor returns a mapping (of zeros or otherwise). *)
Theorem sample_pagerank_nonpositive_samples {F : Type} `{Arith F}
    (rs : RandomSource F) (corpus : dict (gset string))
    (damping_factor : F) (n : Z) :
  corpus ≠ [] → n ≤ 0 →
  sample_pagerank rs corpus damping_factor n = Raise ZeroDivisionError
  ∧ sample_pagerank rs corpus damping_factor n ≠ Raise InvalidInput
  ∧ ∀ r, sample_pagerank rs corpus damping_factor n ≠ Ok r.
Proof.
  intros Hne Hn.
  assert (sample_pagerank rs corpus damping_factor n
          = Raise ZeroDivisionError) as ->; [|done].
  unfold sample_pagerank, dict_comp.
  assert (keys corpus ≠ []) as Hk by (by destruct corpus).
  destruct (zero_counters_from (keys corpus) []) as (cnt & -> & Hz & Hcnt);
    [constructor|].
  simpl.
  destruct (random_choice_nonempty rs O (keys corpus) Hk) as (p & -> & _).
  simpl. replace (Z.to_nat n) with O by lia. simpl.
  rewrite sum_zero_counters
    by (unfold values; apply Forall_fmap; eapply Forall_impl; eauto).
  destruct cnt as [|[k v] cnt]; [by destruct Hcnt; [right|]|]. done.
Qed.

Lemma sample_pagerank_nonpositive_samples_witness :
  sample_pagerank first_draw_float dead_end_graph 0.85%float 0
    = Raise ZeroDivisionError
  ∧ sample_pagerank first_draw_float dead_end_graph 0.85%float 0
    ≠ Raise InvalidInput
  ∧ ∀ r, sample_pagerank first_draw_float dead_end_graph 0.85%float 0
         ≠ Ok r.
Proof.
  apply (sample_pagerank_nonpositive_samples first_draw_float
           dead_end_graph 0.85%float 0).
  - discriminate.
  - lia.
Defined.

(** C8 as stated fails: on the graph [{A: {B, C}, B: {}, C: {A}}] with a
    sample count of [0] (and likewise [-3]) [sample_pagerank] ends in the
    uncaught [ZeroDivisionError]; it does not reject the input with
    [InvalidInput] and does not return a mapping of zeros. *)
Lemma sample_pagerank_zero_samples :
  sample_pagerank first_draw_float dead_end_graph 0.85%float 0
    = Raise ZeroDivisionError
  ∧ sample_pagerank first_draw_float dead_end_graph 0.85%float (-3)
    = Raise ZeroDivisionError
  ∧ ¬ (sample_pagerank first_draw_float dead_end_graph 0.85%float 0
         = Raise InvalidInput
       ∨ ∃ r, sample_pagerank first_draw_float dead_end_graph 0.85%float 0
              = Ok r
              ∧ ∀ p v, dict_get r p = Ok v → v = 0%float).
Proof.
  split_and!; [by vm_compute..|].
  assert (sample_pagerank first_draw_float dead_end_graph 0.85%float 0
          = Raise ZeroDivisionError) as -> by (by vm_compute).
  intros [?|(r & ? & _)]; done.
Qed.

Local Open Scope Q_scope.

(** A population of one element with a positive weight: the draw is that
    element, whatever [random()] returns. *)
Lemma random_choices_single {A} (rs : RandomSource Q) (k : nat) (x : A)
    (w : Q) :
  0 < w → random_choices rs k [x] [w] = Ok (x, S k).
Proof.
  intros Hw. unfold random_choices.
  cbn [accumulate accumulate_from length bool_decide negb last].
  rewrite bool_decide_eq_true_2 by done.
  cbn [negb fle fadd of_int is_finite Q_arith].
  assert ((w + inject_Z 0 ?= inject_Z 0) = Gt) as ->.
  { rewrite <- Qgt_alt. unfold inject_Z. lra. }
  reflexivity.
Qed.

(** On the single-node graph every round stays on [A]. *)
Lemma sample_loop_single_node (rs : RandomSource Q) (rounds : nat)
    (c : Z) (k : nat) :
  sample_loop rounds rs single_node (85 # 100) ([("A", c)], "A", k)
  = Ok ([("A", (c + Z.of_nat rounds)%Z)], "A", (k + rounds)%nat).
Proof.
  revert c k. induction rounds as [|rounds IH]; intros c k.
  - simpl. by rewrite Z.add_0_r, Nat.add_0_r.
  - cbn [sample_loop]. unfold sample_step at 1.
    change (dict_get [("A", c)] "A") with (Ok (A := Z) c).
    change (transition_model single_node "A" (85 # 100))
      with (Ok (A := dict Q) [("A", 0 + (1 - (85 # 100)) / 1)]).
    cbn [mbind result_bind keys values fmap list_fmap fst snd].
    rewrite random_choices_single by reflexivity.
    cbn [mbind result_bind dict_set].
    rewrite bool_decide_eq_true_2 by done.
    rewrite IH.
    replace (c + 1 + Z.of_nat rounds)%Z with (c + Z.of_nat (S rounds))%Z
      by lia.
    by replace (S k + rounds)%nat with (k + S rounds)%nat by lia.
Qed.

(** The sampling half of the single-node scenario: [{A: 1.0}] for every
    positive sample count and every random source. *)
Lemma sample_pagerank_single_node (rs : RandomSource Q) (n : Z) :
  (0 < n)%Z →
  ∃ v, sample_pagerank rs single_node (85 # 100) n = Ok [("A", v)] ∧ v == 1.
Proof.
  intros Hn. unfold sample_pagerank.
  change (dict_comp (λ _, Ok 0%Z) (keys single_node))
    with (Ok (A := dict Z) [("A", 0%Z)]).
  cbn [mbind result_bind].
  change (random_choice rs 0 (keys single_node))
    with (Ok (A := string * nat) ("A", 1%nat)).
  cbn [mbind result_bind].
  rewrite sample_loop_single_node.
  cbn [mbind result_bind values fmap list_fmap snd foldl].
  rewrite Z.add_0_l, Z2Nat.id by lia.
  cbn [foldlM]. unfold int_truediv, div_int.
  rewrite bool_decide_eq_false_2 by lia.
  cbn. eexists. split; [reflexivity|].
  field. change 0 with (inject_Z 0). rewrite inject_Z_injective. lia.
Qed.

Example sample_pagerank_single_node_float :
  sample_pagerank first_draw_float single_node 0.85%float 10000
  = Ok [("A", 1%float)].
Proof. by vm_compute. Qed.

End Sampling.

(** * One round of the iterative estimator *)

Section Iteration.
Local Open Scope string_scope.
Local Open Scope Z_scope.

Section UpdateFacts.
Context {F : Type} `{Arith F}.
Local Open Scope py_scope.

Lemma rank_of_get (page_rank : dict F) (i : string) :
  i ∈ keys page_rank → dict_get page_rank i = Ok (rank_of page_rank i).
Proof.
  intros (r & Hr)%dict_get_present. unfold rank_of. by rewrite Hr.
Qed.

Lemma rank_of_table (x : string → F) (ks : list string) (i : string) :
  i ∈ ks → rank_of (table x ks) i = x i.
Proof. intros Hi. unfold rank_of. by rewrite dict_get_tabulate. Qed.

(** Lines 127-129 for one page: the stored value of [page] becomes the
    accumulated one; no other entry changes. *)
Lemma inner_loop_accumulates (d : F) (page_rank : dict F) (page : string)
    (entries : dict (gset string)) (new : dict F) (cur : F) :
  (∀ i, i ∈ keys entries → i ∈ keys page_rank) →
  dict_get new page = Ok cur →
  foldlM
    (λ new_Pge_Rnk '(lnkng_page, Lnks),
       if bool_decide (page ∈ (Lnks : gset string)) then
         cur ← dict_get new_Pge_Rnk page;
         r ← dict_get page_rank lnkng_page;
         q ← div_int r (Z.of_nat (size Lnks));
         Ok (dict_set new_Pge_Rnk page (cur + d * q))
       else Ok new_Pge_Rnk)
    entries new
  = Ok (dict_set new page (accumulate_links d page_rank page entries cur)).
Proof.
  revert new cur. induction entries as [|[i L] entries IH];
    intros new cur Hkeys Hcur.
  - simpl. by rewrite dict_set_same.
  - assert (∀ j, j ∈ keys entries → j ∈ keys page_rank) as Hkeys'.
    { intros j Hj. apply Hkeys. unfold keys. simpl. apply elem_of_cons.
      by right. }
    pose proof (dict_get_Ok_key _ _ _ Hcur) as Hpage.
    cbn [foldlM]. unfold accumulate_links. cbn [foldl].
    case_bool_decide as Hin.
    + rewrite Hcur. cbn [mbind result_bind].
      rewrite rank_of_get
        by (apply Hkeys; unfold keys; simpl; apply elem_of_cons; by left).
      cbn [mbind result_bind].
      rewrite div_int_nonzero by (apply size_pos_of_elem in Hin; lia).
      cbn [mbind result_bind].
      rewrite (IH _ (cur + d * (rank_of page_rank i
                                / of_int (Z.of_nat (size L)))))
        by (done || by apply dict_get_set).
      by rewrite dict_set_set.
    + cbn [mbind result_bind]. by rewrite (IH _ cur).
Qed.

(** Lines 126-129 on a table: every page of [pages] gets its links
    accumulated. *)
Lemma outer_loop_accumulates (corpus : dict (gset string)) (d : F)
    (page_rank : dict F) (ks pages : list string) (g : string → F) :
  NoDup ks → NoDup pages →
  (∀ p, p ∈ pages → p ∈ ks) →
  (∀ i, i ∈ keys corpus → i ∈ keys page_rank) →
  foldlM
    (λ new_Pge_Rnk page,
       foldlM
         (λ new_Pge_Rnk '(lnkng_page, Lnks),
            if bool_decide (page ∈ (Lnks : gset string)) then
              cur ← dict_get new_Pge_Rnk page;
              r ← dict_get page_rank lnkng_page;
              q ← div_int r (Z.of_nat (size Lnks));
              Ok (dict_set new_Pge_Rnk page (cur + d * q))
            else Ok new_Pge_Rnk)
         corpus new_Pge_Rnk)
    pages (table g ks)
  = Ok (table (λ k, if bool_decide (k ∈ pages)
                    then accumulate_links d page_rank k corpus (g k)
                    else g k) ks).
Proof.
  intros Hks Hpages Hsub Hkeys. revert g Hpages Hsub.
  induction pages as [|p pages IH]; intros g Hpages Hsub.
  - done.
  - apply NoDup_cons in Hpages as [Hp Hpages].
    assert (p ∈ ks) as Hpks by (apply Hsub, elem_of_cons; by left).
    cbn [foldlM].
    rewrite (inner_loop_accumulates d page_rank p corpus _ (g p))
      by (done || by apply dict_get_tabulate).
    cbn [mbind result_bind]. rewrite dict_set_table by done.
    rewrite IH; [|done|intros q Hq; apply Hsub, elem_of_cons; by right].
    f_equal. apply table_ext. intros k Hk. unfold fn_set.
    destruct (decide (k = p)) as [->|Hne].
    + rewrite (bool_decide_eq_false_2 (p ∈ pages)) by done.
      rewrite bool_decide_eq_true_2 by done.
      rewrite bool_decide_eq_true_2; [done|]. apply elem_of_cons; by left.
    + rewrite (bool_decide_eq_false_2 (k = p)) by done.
      destruct (decide (k ∈ pages)) as [Hin|Hnin].
      * rewrite !bool_decide_eq_true_2; [done| |done].
        apply elem_of_cons; by right.
      * rewrite !bool_decide_eq_false_2; [done| |done].
        rewrite not_elem_of_cons. done.
Qed.

(** One round of the update, entry by entry. *)
Lemma update_rank_table (corpus : dict (gset string)) (d : F)
    (page_rank : dict F) :
  NoDup (keys corpus) →
  (∀ i, i ∈ keys corpus → i ∈ keys page_rank) →
  update_rank corpus d page_rank
  = Ok (table (update_value corpus d page_rank) (keys corpus)).
Proof.
  intros Hnd Hkeys. unfold update_rank.
  rewrite (dict_comp_tabulate _
             (λ _, (of_int 1 - d) / of_int (Z.of_nat (length corpus))));
    [|done|].
  2:{ intros k Hk. apply div_int_nonzero. by eapply keys_nonempty_length. }
  cbn [mbind result_bind].
  rewrite outer_loop_accumulates by done.
  f_equal. apply table_ext. intros k Hk.
  by rewrite bool_decide_eq_true_2.
Qed.

Lemma update_rank_fun (corpus : dict (gset string)) (d : F)
    (x : string → F) :
  NoDup (keys corpus) →
  update_rank corpus d (table x (keys corpus))
  = Ok (table (update_fun corpus d x) (keys corpus)).
Proof.
  intros Hnd. rewrite update_rank_table; [done|done|].
  intros i Hi. by rewrite keys_tabulate.
Qed.

Lemma allM_pure {B} (f : B → result bool) (g : B → bool) (l : list B) :
  (∀ x, x ∈ l → f x = Ok (g x)) → allM f l = Ok (forallb g l).
Proof.
  induction l as [|x l IH]; intros Hf; simpl; [done|].
  rewrite Hf by (apply elem_of_cons; by left). cbn [mbind result_bind].
  destruct (g x); [|done]. apply IH. intros y Hy. apply Hf, elem_of_cons.
  by right.
Qed.

Lemma converged_table (corpus : dict (gset string)) (y x : string → F) :
  converged corpus (table y (keys corpus)) (table x (keys corpus))
  = Ok (close_enough (keys corpus) y x).
Proof.
  unfold converged, close_enough. apply allM_pure. intros p Hp.
  by rewrite !dict_get_tabulate.
Qed.

Lemma initial_rank_table (corpus : dict (gset string)) :
  NoDup (keys corpus) →
  initial_rank (F := F) corpus
  = Ok (table (λ _, of_int 1 / of_int (Z.of_nat (length corpus)))
              (keys corpus)).
Proof.
  intros Hnd. unfold initial_rank. apply dict_comp_tabulate; [done|].
  intros k Hk. unfold int_truediv. apply div_int_nonzero.
  by eapply keys_nonempty_length.
Qed.

(** One turn of the [while] loop on a table. *)
Lemma iterate_loop_step (fuel : nat) (corpus : dict (gset string)) (d : F)
    (x : string → F) :
  NoDup (keys corpus) →
  iterate_loop (S fuel) corpus d (table x (keys corpus))
  = if close_enough (keys corpus) (update_fun corpus d x) x
    then Some (Ok (table x (keys corpus)))
    else iterate_loop fuel corpus d
           (table (update_fun corpus d x) (keys corpus)).
Proof.
  intros Hnd. cbn [iterate_loop].
  by rewrite update_rank_fun, converged_table by done.
Qed.

(** If the test of line 132 holds after [k] rounds, the loop ends within
    [k + 1] turns, on a vector for which the test holds. *)
Lemma iterate_loop_reaches (k : nat) (corpus : dict (gset string)) (d : F)
    (x : string → F) :
  NoDup (keys corpus) →
  close_enough (keys corpus)
    (update_fun corpus d (iterate_fun k corpus d x))
    (iterate_fun k corpus d x) = true →
  ∃ j, (j ≤ k)%nat ∧
    iterate_loop (S k) corpus d (table x (keys corpus))
    = Some (Ok (table (iterate_fun j corpus d x) (keys corpus))) ∧
    close_enough (keys corpus)
      (update_fun corpus d (iterate_fun j corpus d x))
      (iterate_fun j corpus d x) = true.
Proof.
  intros Hnd. revert x. induction k as [|k IH]; intros x Hclose.
  - exists O. split; [done|]. rewrite iterate_loop_step by done.
    simpl in Hclose. by rewrite Hclose.
  - rewrite iterate_loop_step by done.
    destruct (close_enough (keys corpus) (update_fun corpus d x) x) eqn:Hx.
    + exists O. split; [lia|]. done.
    + destruct (IH (update_fun corpus d x) Hclose) as (j & Hj & Hrun & Hc).
      exists (S j). split; [lia|]. done.
Qed.

End UpdateFacts.

End Iteration.

(** * The loop of the iterative estimator *)

Section IterativeEstimator.
Local Open Scope string_scope.
Local Open Scope Z_scope.

Section LoopFacts.
Context {F : Type} `{Arith F}.
Local Open Scope py_scope.

Lemma allM_true {B} (f : B → result bool) (l : list B) :
  allM f l = Ok true → ∀ x, x ∈ l → f x = Ok true.
Proof.
  induction l as [|y l IH]; simpl.
  - by intros _ x ?%elem_of_nil.
  - destruct (f y) as [[]|] eqn:Hy; cbn [mbind result_bind]; [|done..].
    intros Hl x [->|Hx]%elem_of_cons; [done|]. by apply IH.
Qed.

(** What the test of line 132 says when it succeeds. *)
Lemma converged_true (corpus : dict (gset string)) (new page_rank : dict F) :
  converged corpus new page_rank = Ok true →
  ∀ p, p ∈ keys corpus →
    ∃ a b, dict_get new p = Ok a ∧ dict_get page_rank p = Ok b
           ∧ flt (fabs (a - b)) tolerance = true.
Proof.
  intros Hall p Hp. apply (allM_true _ _ Hall) in Hp.
  destruct (dict_get new p) as [a|]; [|done].
  destruct (dict_get page_rank p) as [b|]; [|done].
  cbn [mbind result_bind] in Hp. exists a, b. by simplify_eq.
Qed.

(** The loop returns the mapping [page_rank] of its last turn: the one the
    final update was computed from. *)
Lemma iterate_loop_returns (fuel : nat) (corpus : dict (gset string)) (d : F)
    (start r : dict F) :
  iterate_loop fuel corpus d start = Some (Ok r) →
  ∃ k new, (k < fuel)%nat
    ∧ nth_iterate k corpus d start = Ok r
    ∧ update_rank corpus d r = Ok new
    ∧ converged corpus new r = Ok true
    ∧ ∀ j, (j < k)%nat →
        ∃ rj newj, nth_iterate j corpus d start = Ok rj
          ∧ update_rank corpus d rj = Ok newj
          ∧ converged corpus newj rj = Ok false.
Proof.
  revert start. induction fuel as [|fuel IH]; intros start; [done|].
  cbn [iterate_loop].
  destruct (update_rank corpus d start) as [new|] eqn:Hup; [|done].
  destruct (converged corpus new start) as [[]|] eqn:Hconv; [| |done].
  - intros [= <-]. exists O, new. split_and!; [lia|done..|]. lia.
  - intros (k & new' & Hk & Hnth & Hup' & Hconv' & Hbefore)%IH.
    exists (S k), new'. split_and!; [lia| |done|done|].
    + cbn [nth_iterate]. by rewrite Hup.
    + intros [|j] Hj.
      * exists start, new. done.
      * destruct (Hbefore j) as (rj & newj & ? & ? & ?); [lia|].
        exists rj, newj. split_and!; [|done..].
        cbn [nth_iterate]. by rewrite Hup.
Qed.

End LoopFacts.

(** C10.  Whenever [iterate_pagerank] returns a mapping [r], in either
    arithmetic: (1) [r] is the mapping [page_rank] from before the final
    update, that is the [k]-th iterate of the initial mapping for the first
    [k] at which the convergence test succeeds, and not the mapping [new]
    computed from it in that turn; (2) one more application of the update
    to [r] moves every node's entry by less than [0.001]; (3) if the test
    already succeeds on the first update, the initial mapping itself is
    what the function returns (with any fuel for one turn), so [r] is
    it. *)
Theorem iterate_pagerank_returns_previous {F : Type} `{Arith F}
    (fuel : nat) (corpus : dict (gset string)) (damping_factor : F)
    (r : dict F) :
  iterate_pagerank fuel corpus damping_factor = Some (Ok r) →
  (∃ init k,
     initial_rank corpus = Ok init
     ∧ nth_iterate k corpus damping_factor init = Ok r
     ∧ ∀ j, (j < k)%nat →
         ∃ rj newj, nth_iterate j corpus damping_factor init = Ok rj
           ∧ update_rank corpus damping_factor rj = Ok newj
           ∧ converged corpus newj rj = Ok false)
  ∧ (∃ new,
       update_rank corpus damping_factor r = Ok new
       ∧ converged corpus new r = Ok true
       ∧ ∀ p, p ∈ keys corpus →
           ∃ a b, dict_get new p = Ok a ∧ dict_get r p = Ok b
                  ∧ flt (fabs (a - b)%py) tolerance = true)
  ∧ (∀ init new0,
       initial_rank corpus = Ok init →
       update_rank corpus damping_factor init = Ok new0 →
       converged corpus new0 init = Ok true →
       r = init
       ∧ ∀ fuel', iterate_pagerank (S fuel') corpus damping_factor
                  = Some (Ok init)).
Proof.
  unfold iterate_pagerank. intros Hrun.
  destruct (initial_rank corpus) as [init|] eqn:Hinit; [|done].
  split_and!.
  - apply iterate_loop_returns in Hrun
      as (k & new & _ & Hnth & _ & _ & Hbefore).
    by exists init, k.
  - apply iterate_loop_returns in Hrun
      as (k & new & _ & _ & Hup & Hconv & _).
    exists new. split_and!; [done..|]. by apply converged_true.
  - intros init' new0 [= <-] Hup Hconv. split.
    + destruct fuel as [|fuel]; [done|]. cbn [iterate_loop] in Hrun.
      rewrite Hup, Hconv in Hrun. by simplify_eq.
    + intros fuel'. cbn [iterate_loop]. by rewrite Hup, Hconv.
Qed.

Lemma iterate_pagerank_returns_previous_witness :
  iterate_pagerank 1 three_cycle (85 # 100)%Q
    = Some (Ok [("A", (1 # 3)%Q); ("B", (1 # 3)%Q); ("C", (1 # 3)%Q)])
  ∧ ∃ new,
      update_rank three_cycle (85 # 100)%Q
        [("A", (1 # 3)%Q); ("B", (1 # 3)%Q); ("C", (1 # 3)%Q)] = Ok new
      ∧ converged three_cycle new
          [("A", (1 # 3)%Q); ("B", (1 # 3)%Q); ("C", (1 # 3)%Q)] = Ok true.
Proof.
  assert (iterate_pagerank 1 three_cycle (85 # 100)%Q
          = Some (Ok [("A", (1 # 3)%Q); ("B", (1 # 3)%Q); ("C", (1 # 3)%Q)]))
    as Hrun by (vm_compute; reflexivity).
  split; [exact Hrun|].
  destruct (iterate_pagerank_returns_previous 1 three_cycle (85 # 100)%Q
              _ Hrun) as (_ & (new & Hup & Hconv & _) & _).
  exists new. split; assumption.
Defined.

(** A node without outbound links is in no test [page in Lnks]: its entry
    of the corpus adds nothing to any page. *)
Lemma accumulate_links_dead_end {F : Type} `{Arith F} (d : F)
    (page_rank : dict F) (page i : string) (entries : dict (gset string))
    (acc : F) :
  accumulate_links d page_rank page ((i, ∅) :: entries) acc
  = accumulate_links d page_rank page entries acc.
Proof. reflexivity. Qed.

Local Open Scope Q_scope.

(** C2.  On [{A: {B, C}, B: {}, C: {A}}] with damping factor 0.85 the first
    round, from rank 1/3 everywhere, gives [A] 1/3 and [B], [C] 23/120
    each (0.3333, 0.1917, 0.1917 in binary64): the dead end [B] adds
    nothing, where the claim has it add [0.85 * (1/3) / 3] to every
    node.  The new ranks sum to 43/60, not 1. *)
Theorem update_rank_ignores_dead_end :
  (initial_rank dead_end_graph ≫= update_rank dead_end_graph 0.85%float)
    = Ok [("A", 0.33333333333333331%float);
          ("B", 0.19166666666666668%float);
          ("C", 0.19166666666666668%float)]
  ∧ ∃ a b c,
      (initial_rank dead_end_graph ≫= update_rank dead_end_graph (85 # 100))
        = Ok [("A", a); ("B", b); ("C", c)]
      ∧ a == (1 - (85 # 100)) / 3 + (85 # 100) * ((1 # 3) / 1)
      ∧ b == (1 - (85 # 100)) / 3 + (85 # 100) * ((1 # 3) / 2)
      ∧ c == (1 - (85 # 100)) / 3 + (85 # 100) * ((1 # 3) / 2)
      ∧ ¬ a == (1 - (85 # 100)) / 3
              + (85 # 100) * ((1 # 3) / 1 + (1 # 3) / 3)
      ∧ ¬ b == (1 - (85 # 100)) / 3
              + (85 # 100) * ((1 # 3) / 2 + (1 # 3) / 3)
      ∧ a + b + c == 43 # 60.
Proof.
  split; [by vm_compute|].
  eexists _, _, _. split; [vm_compute; reflexivity|].
  split_and!; by vm_compute.
Qed.

(** C3.  On the single-node graph [{A: {}}] with damping factor 0.85,
    [iterate_pagerank] returns [{A: 0.15000000000000002}] (3/20 in exact
    arithmetic) after its second turn, whatever fuel is left: not
    [{A: 1.0}]. *)
Theorem iterate_pagerank_single_node :
  (∀ fuel, iterate_pagerank (S (S fuel)) single_node 0.85%float
           = Some (Ok [("A", 0.15000000000000002%float)]))
  ∧ (∀ fuel, ∃ v, iterate_pagerank (S (S fuel)) single_node (85 # 100)
                  = Some (Ok [("A", v)]) ∧ v == 15 # 100 ∧ ¬ v == 1).
Proof.
  split; intros fuel.
  - by vm_compute.
  - eexists. split; [vm_compute; reflexivity|]. split; by vm_compute.
Qed.

(** C5.  The ranks [iterate_pagerank] returns on the single-node graph sum
    to 0.15000000000000002, and on [{A: {B, C}, B: {}, C: {A}}] to
    0.37179491393114328 (damping factor 0.85, binary64): both further
    than 0.001 from 1.0. *)
Theorem iterate_pagerank_sum_dead_end :
  (∃ r, iterate_pagerank 2 single_node 0.85%float = Some (Ok r)
        ∧ fsum (values r) = 0.15000000000000002%float
        ∧ flt (fabs (fsub (fsum (values r)) 1%float)) 0.001%float = false)
  ∧ (∃ r, iterate_pagerank 100 dead_end_graph 0.85%float = Some (Ok r)
        ∧ fsum (values r) = 0.37179491393114328%float
        ∧ flt (fabs (fsub (fsum (values r)) 1%float)) 0.001%float = false)
  ∧ (∃ r, iterate_pagerank 2 single_node (85 # 100) = Some (Ok r)
        ∧ fsum (values r) == 15 # 100).
Proof.
  split_and!; eexists; (split; [vm_compute; reflexivity|]); by vm_compute.
Qed.

End IterativeEstimator.

(** * Termination of the iterative estimator *)

Section Termination.
Local Open Scope string_scope.
Local Open Scope Z_scope.

Section LoopRuns.
Context {F : Type} `{Arith F}.

(** A run that has returned returns the same with more fuel. *)
Lemma iterate_loop_more_fuel (fuel fuel' : nat)
    (corpus : dict (gset string)) (d : F) (start : dict F)
    (r : result (dict F)) :
  iterate_loop fuel corpus d start = Some r → (fuel ≤ fuel')%nat →
  iterate_loop fuel' corpus d start = Some r.
Proof.
  revert fuel' start. induction fuel as [|fuel IH]; intros fuel' start;
    [done|].
  intros Hrun Hle. destruct fuel' as [|fuel']; [lia|].
  cbn [iterate_loop] in *.
  destruct (update_rank corpus d start) as [new|]; [|done].
  destruct (converged corpus new start) as [[]|]; [done| |done].
  apply IH; [done|lia].
Qed.




End LoopRuns.




End Termination.

(** * Convergence of the iteration in exact arithmetic *)

Section Convergence.
Local Open Scope string_scope.
Local Open Scope Z_scope.
Local Open Scope Q_scope.

(** *** Sums over the pages *)

Lemma Qsum_map_le {A} (f g : A → Q) (l : list A) :
  (∀ p, p ∈ l → f p <= g p) → Qsum (map f l) <= Qsum (map g l).
Proof.
  unfold Qsum. induction l as [|p l IH]; intros Hfg; simpl; [lra|].
  assert (f p <= g p) by (apply Hfg, elem_of_cons; by left).
  assert (foldr Qplus 0 (map f l) <= foldr Qplus 0 (map g l)).
  { apply IH. intros q Hq. apply Hfg, elem_of_cons. by right. }
  lra.
Qed.

Lemma Qsum_map_eq {A} (f g : A → Q) (l : list A) :
  (∀ p, p ∈ l → f p == g p) → Qsum (map f l) == Qsum (map g l).
Proof.
  intros Hfg. apply Qle_antisym; apply Qsum_map_le; intros p Hp;
    rewrite (Hfg p Hp); lra.
Qed.

Lemma Qsum_map_plus {A} (f g : A → Q) (l : list A) :
  Qsum (map (λ p, f p + g p) l) == Qsum (map f l) + Qsum (map g l).
Proof.
  unfold Qsum. induction l as [|p l IH]; simpl; [lra|]. rewrite IH. lra.
Qed.

Lemma Qsum_map_scale {A} (c : Q) (f : A → Q) (l : list A) :
  Qsum (map (λ p, c * f p) l) == c * Qsum (map f l).
Proof.
  unfold Qsum. induction l as [|p l IH]; simpl; [lra|]. rewrite IH. ring.
Qed.

Lemma Qsum_map_zero {A} (l : list A) : Qsum (map (λ _, 0) l) == 0.
Proof. unfold Qsum. induction l as [|p l IH]; simpl; lra. Qed.

Lemma Qsum_map_nonneg {A} (f : A → Q) (l : list A) :
  (∀ p, 0 <= f p) → 0 <= Qsum (map f l).
Proof.
  intros Hf. rewrite <- (Qsum_map_zero l). apply Qsum_map_le. auto.
Qed.

Lemma Qsum_indicator (L : gset string) (a : Q) (ks : list string) :
  Qsum (map (λ p, if bool_decide (p ∈ L) then a else 0) ks)
  == Qnat (count_links L ks) * a.
Proof.
  induction ks as [|p ks IH].
  - unfold Qsum, count_links. simpl. change (Qnat 0) with 0. ring.
  - rewrite count_links_cons, Qnat_plus.
    unfold Qsum in *. simpl. rewrite IH.
    case_bool_decide;
      [change (Qnat 1) with 1 | change (Qnat 0) with 0]; ring.
Qed.

(** A page hands out at most its own rank: the pages of [ks] that it
    links to are at most [size L]. *)
Lemma share_le (L : gset string) (v : Q) (ks : list string) :
  NoDup ks → 0 <= v → Qnat (count_links L ks) * (v / Qnat (size L)) <= v.
Proof.
  intros Hnd Hv. pose proof (count_links_le L ks Hnd) as Hle.
  destruct (decide (size L = 0%nat)) as [Hz|Hnz].
  - replace (count_links L ks) with 0%nat by lia.
    change (Qnat 0) with 0. lra.
  - assert (0 < Qnat (size L)) as Hpos by (apply Qnat_pos; lia).
    assert (0 <= v / Qnat (size L)) as Hq by (apply Qle_shift_div_l; lra).
    apply Qle_trans with (Qnat (size L) * (v / Qnat (size L))).
    + apply Qmult_le_compat_r; [by apply Qnat_le|done].
    + apply Qle_lteq. right. field. lra.
Qed.

(** *** The update as an affine map *)

Lemma link_sum_cons (i : string) (L : gset string)
    (entries : dict (gset string)) (x : string → Q) (p : string) :
  link_sum ((i, L) :: entries) x p
  = (if bool_decide (p ∈ L) then x i / Qnat (size L) else 0)
    + link_sum entries x p.
Proof. reflexivity. Qed.

Lemma accumulate_links_Q (d : Q) (x : string → Q) (ks : list string)
    (p : string) (entries : dict (gset string)) (acc : Q) :
  (∀ i, i ∈ keys entries → i ∈ ks) →
  accumulate_links d (table x ks) p entries acc
  == acc + d * link_sum entries x p.
Proof.
  revert acc. induction entries as [|[i L] entries IH]; intros acc Hkeys.
  - unfold accumulate_links, link_sum, Qsum. simpl. ring.
  - assert (∀ j, j ∈ keys entries → j ∈ ks) as Hkeys'.
    { intros j Hj. apply Hkeys. unfold keys. simpl. apply elem_of_cons.
      by right. }
    rewrite link_sum_cons. unfold accumulate_links in *. cbn [foldl].
    case_bool_decide as Hin.
    + rewrite IH by done.
      rewrite rank_of_table
        by (apply Hkeys; unfold keys; simpl; apply elem_of_cons; by left).
      cbn [fadd fmul fdiv of_int Q_arith]. fold (Qnat (size L)). ring.
    + rewrite IH by done. ring.
Qed.

Lemma update_fun_Q (corpus : dict (gset string)) (d : Q) (x : string → Q)
    (p : string) :
  update_fun corpus d x p
  == (1 - d) / Qnat (length corpus) + d * link_sum corpus x p.
Proof.
  unfold update_fun, update_value. by rewrite accumulate_links_Q.
Qed.

Lemma link_sum_sub (entries : dict (gset string)) (x y : string → Q)
    (p : string) :
  link_sum entries x p - link_sum entries y p
  == link_sum entries (λ i, x i - y i) p.
Proof.
  induction entries as [|[i L] entries IH].
  - unfold link_sum, Qsum. simpl. ring.
  - rewrite !link_sum_cons, <- IH. case_bool_decide; [|ring].
    unfold Qdiv. ring.
Qed.

Lemma link_sum_abs (entries : dict (gset string)) (z : string → Q)
    (p : string) :
  Qabs (link_sum entries z p) <= link_sum entries (λ i, Qabs (z i)) p.
Proof.
  induction entries as [|[i L] entries IH].
  - by vm_compute.
  - rewrite !link_sum_cons.
    eapply Qle_trans; [apply Qabs_triangle|].
    apply Qplus_le_compat; [|done].
    case_bool_decide; [|by vm_compute].
    unfold Qdiv. rewrite Qabs_Qmult.
    rewrite (Qabs_pos (/ Qnat (size L))); [lra|].
    apply Qinv_le_0_compat, Qnat_nonneg.
Qed.

(** The rank handed out over links is at most the rank there is. *)
Lemma link_sum_mass (entries : dict (gset string)) (a : string → Q)
    (ks : list string) :
  NoDup ks → (∀ i, 0 <= a i) →
  Qsum (map (link_sum entries a) ks) <= Qsum (map a (keys entries)).
Proof.
  intros Hnd Ha. induction entries as [|[i L] entries IH].
  - unfold link_sum. simpl. rewrite Qsum_map_zero. unfold Qsum. simpl. lra.
  - rewrite (Qsum_map_eq _ (λ p, (if bool_decide (p ∈ L)
                                   then a i / Qnat (size L) else 0)
                                  + link_sum entries a p))
      by (intros p _; by rewrite link_sum_cons).
    rewrite Qsum_map_plus, Qsum_indicator.
    pose proof (share_le L (a i) ks Hnd (Ha i)).
    by apply Qplus_le_compat.
Qed.

(** *** The update is a contraction for the distance [dist] *)

Lemma Qmult_le_compat_nonneg_l (c x y : Q) :
  0 <= c → x <= y → c * x <= c * y.
Proof.
  intros Hc Hxy. rewrite (Qmult_comm c x), (Qmult_comm c y).
  by apply Qmult_le_compat_r.
Qed.

Lemma update_fun_contracts (corpus : dict (gset string)) (d : Q)
    (x y : string → Q) :
  NoDup (keys corpus) → 0 <= d →
  dist (keys corpus) (update_fun corpus d x) (update_fun corpus d y)
  <= d * dist (keys corpus) x y.
Proof.
  intros Hnd Hd. unfold dist.
  apply Qle_trans
    with (Qsum (map (λ p, d * link_sum corpus (λ i, Qabs (x i - y i)) p)
                    (keys corpus))).
  - apply Qsum_map_le. intros p _. rewrite !update_fun_Q.
    qreplace ((1 - d) / Qnat (length corpus) + d * link_sum corpus x p
                    - ((1 - d) / Qnat (length corpus)
                       + d * link_sum corpus y p))
      (d * (link_sum corpus x p - link_sum corpus y p)).
    rewrite link_sum_sub, Qabs_Qmult, (Qabs_pos d) by done.
    apply Qmult_le_compat_nonneg_l; [done|]. apply link_sum_abs.
  - rewrite Qsum_map_scale. apply Qmult_le_compat_nonneg_l; [done|].
    apply (link_sum_mass corpus (λ i, Qabs (x i - y i))); [done|].
    intros i. apply Qabs_nonneg.
Qed.

Lemma iterate_fun_update {F : Type} `{Arith F} (k : nat)
    (corpus : dict (gset string)) (d : F) (x : string → F) :
  update_fun corpus d (iterate_fun k corpus d x)
  = iterate_fun k corpus d (update_fun corpus d x).
Proof. revert x. induction k as [|k IH]; intros x; simpl; [done|]. apply IH. Qed.

Lemma dist_nonneg (ks : list string) (x y : string → Q) : 0 <= dist ks x y.
Proof.
  unfold dist. apply (Qsum_map_nonneg (λ p, Qabs (x p - y p))).
  intros p. apply Qabs_nonneg.
Qed.

Lemma dist_component (ks : list string) (x y : string → Q) (p : string) :
  p ∈ ks → Qabs (x p - y p) <= dist ks x y.
Proof.
  induction ks as [|q ks IH]; [by intros ?%elem_of_nil|].
  intros Hp.
  change (dist (q :: ks) x y) with (Qabs (x q - y q) + dist ks x y).
  pose proof (dist_nonneg ks x y).
  pose proof (Qabs_nonneg (x q - y q)).
  apply elem_of_cons in Hp as [->|Hp]; [lra|].
  apply IH in Hp. lra.
Qed.

Lemma Qpow_nonneg (d : Q) (k : nat) : 0 <= d → 0 <= Qpow d k.
Proof.
  intros Hd. induction k as [|k IH]; simpl; [lra|]. by apply Qmult_le_0_compat.
Qed.

Lemma Qpow_le_1 (d : Q) (k : nat) : 0 <= d <= 1 → Qpow d k <= 1.
Proof.
  intros [Hd0 Hd1]. induction k as [|k IH]; simpl; [lra|].
  apply Qle_trans with (d * 1); [|lra].
  by apply Qmult_le_compat_nonneg_l.
Qed.

Lemma iterate_fun_dist (k : nat) (corpus : dict (gset string)) (d : Q)
    (x y : string → Q) :
  NoDup (keys corpus) → 0 <= d →
  dist (keys corpus) (iterate_fun k corpus d y) (iterate_fun k corpus d x)
  <= Qpow d k * dist (keys corpus) y x.
Proof.
  intros Hnd Hd. revert x y. induction k as [|k IH]; intros x y.
  - simpl. lra.
  - cbn [iterate_fun Qpow].
    eapply Qle_trans; [apply IH|].
    qreplace (d * Qpow d k * dist (keys corpus) y x)
      (Qpow d k * (d * dist (keys corpus) y x)).
    apply Qmult_le_compat_nonneg_l; [by apply Qpow_nonneg|].
    by apply update_fun_contracts.
Qed.

(** Bernoulli's bound: [d^k <= 1 / (1 + k (1 - d))]. *)
Lemma Qpow_bound (d : Q) (k : nat) :
  0 <= d <= 1 → Qpow d k * (1 + Qnat k * (1 - d)) <= 1.
Proof.
  intros Hd. induction k as [|k IH].
  - simpl. change (Qnat 0) with 0. lra.
  - cbn [Qpow]. rewrite Qnat_S.
    pose proof (Qpow_nonneg d k (proj1 Hd)) as HP0.
    pose proof (Qpow_le_1 d k Hd) as HP1.
    set (P := Qpow d k) in *. set (n := Qnat k) in *.
    qreplace (d * P * (1 + (n + 1) * (1 - d)))
      (d * (P * (1 + n * (1 - d)) + P * (1 - d))).
    apply Qle_trans with (d * (1 + 1 * (1 - d))).
    + apply Qmult_le_compat_nonneg_l; [lra|].
      apply Qplus_le_compat; [done|].
      apply Qmult_le_compat_r; lra.
    + qreplace (d * (1 + 1 * (1 - d)))
      (1 - (1 - d) * (1 - d)).
      assert (0 <= (1 - d) * (1 - d)) by (apply Qmult_le_0_compat; lra).
      lra.
Qed.

Lemma Qnat_above (q : Q) : ∃ k : nat, q < Qnat k.
Proof.
  exists (Z.to_nat (Qceiling q + 1)). unfold Qnat.
  apply Qle_lt_trans with (inject_Z (Qceiling q)); [apply Qle_ceiling|].
  rewrite <- Zlt_Qlt. lia.
Qed.

(** Powers of a damping factor below 1 get below any positive bound. *)
Lemma Qpow_small (d C eps : Q) :
  0 <= d < 1 → 0 <= C → 0 < eps → ∃ k, Qpow d k * C < eps.
Proof.
  intros [Hd0 Hd1] HC Heps.
  destruct (Qnat_above (C / (eps * (1 - d)))) as [k Hk].
  exists k.
  assert (0 < eps * (1 - d)) as Hpos by (apply Qmult_lt_0_compat; lra).
  assert (C < Qnat k * (eps * (1 - d))) as HCk.
  { apply (Qmult_lt_r _ _ _ Hpos) in Hk.
    assert (C / (eps * (1 - d)) * (eps * (1 - d)) == C) as E
      by (field; lra).
    by rewrite E in Hk. }
  clear Hk.
  pose proof (Qpow_bound d k (conj Hd0 (Qlt_le_weak _ _ Hd1))) as Hb.
  pose proof (Qpow_nonneg d k Hd0) as HP0.
  pose proof (Qnat_nonneg k) as Hn.
  set (P := Qpow d k) in *. set (n := Qnat k) in *.
  assert (0 <= n * (1 - d)) as Hn' by (apply Qmult_le_0_compat; lra).
  assert (0 < 1 + n * (1 - d)) as Hden by lra.
  apply (Qmult_lt_r _ _ _ Hden).
  apply Qle_lt_trans with C.
  - qreplace (P * C * (1 + n * (1 - d)))
      (C * (P * (1 + n * (1 - d)))).
    apply Qle_trans with (C * 1); [|lra].
    by apply Qmult_le_compat_nonneg_l.
  - qreplace (eps * (1 + n * (1 - d)))
      (eps + n * (eps * (1 - d))).
    lra.
Qed.

Lemma close_enough_Q (ks : list string) (y x : string → Q) :
  close_enough ks y x = true ↔ ∀ p, p ∈ ks → Qabs (y p - x p) < 1 # 1000.
Proof.
  unfold close_enough. induction ks as [|q ks IH]; cbn [forallb].
  - split; [by intros _ p ?%elem_of_nil|done].
  - rewrite andb_true_iff, IH. clear IH.
    cbn [flt fabs fsub tolerance Q_arith].
    assert ((match Qabs (y q - x q) ?= 1 # 1000 with
             | Lt => true | _ => false end) = true
            ↔ Qabs (y q - x q) < 1 # 1000) as ->.
    { rewrite Qlt_alt. by destruct (Qabs (y q - x q) ?= 1 # 1000). }
    split.
    + intros [Hq Hks] p [->|Hp]%elem_of_cons; auto.
    + intros Hall. split; [|intros p Hp]; apply Hall, elem_of_cons; auto.
Qed.

(** In exact arithmetic the loop of [iterate_pagerank] does end.  Were
    the ranks rationals, then for every graph with pairwise distinct keys
    (dangling links, self-loops and the empty graph included) and every
    damping factor [0 <= d < 1] there would be an amount of fuel from
    which on the function returns one and the same mapping [r], and at
    [r] the update moves every node's entry by less than [0.001]: the
    update is a contraction by the factor [d] for the sum of the
    entry-wise distances.  The code divides integers on line 120, so its
    ranks are binary64 values, and rounding can defeat the contraction:
    on [star_graph] at [almost_one] the loop alternates for ever. *)
Lemma iterate_pagerank_terminates_exact (corpus : dict (gset string))
    (damping_factor : Q) :
  NoDup (keys corpus) →
  0 <= damping_factor < 1 →
  ∃ fuel r,
    (∀ fuel', (fuel ≤ fuel')%nat →
       iterate_pagerank fuel' corpus damping_factor = Some (Ok r))
    ∧ ∃ new,
        update_rank corpus damping_factor r = Ok new
        ∧ ∀ p, p ∈ keys corpus →
            ∃ a b, dict_get new p = Ok a ∧ dict_get r p = Ok b
                   ∧ Qabs (a - b) < 1 # 1000.
Proof.
  intros Hnd [Hd0 Hd1].
  set (d := damping_factor) in *.
  set (ks := keys corpus).
  set (x0 := λ _ : string,
               fdiv (of_int 1) (of_int (Z.of_nat (length corpus))) : Q).
  destruct (Qpow_small d (dist ks (update_fun corpus d x0) x0) (1 # 1000))
    as [k Hk]; [done|apply dist_nonneg|reflexivity|].
  assert (close_enough ks
            (update_fun corpus d (iterate_fun k corpus d x0))
            (iterate_fun k corpus d x0) = true) as Hclose.
  { apply close_enough_Q. intros p Hp.
    eapply Qle_lt_trans; [by apply dist_component|].
    rewrite iterate_fun_update.
    eapply Qle_lt_trans; [by apply iterate_fun_dist|]. done. }
  destruct (iterate_loop_reaches k corpus d x0 Hnd Hclose)
    as (j & _ & Hrun & Hj).
  exists (S k), (table (iterate_fun j corpus d x0) ks). split.
  - intros fuel' Hfuel. unfold iterate_pagerank.
    rewrite initial_rank_table by done.
    by apply (iterate_loop_more_fuel (S k)).
  - exists (table (update_fun corpus d (iterate_fun j corpus d x0)) ks).
    split; [by apply update_rank_fun|].
    intros p Hp. eexists _, _.
    split; [by apply dict_get_tabulate|].
    split; [by apply dict_get_tabulate|].
    by apply (proj1 (close_enough_Q _ _ _) Hj).
Qed.

End Convergence.

(** * Conservation of rank in exact arithmetic *)

Section RankMass.
Local Open Scope string_scope.
Local Open Scope Z_scope.
Local Open Scope Q_scope.

(** Without dead ends, and with every link leading to a page of the
    corpus, the update keeps the total rank: the loss of rank that the
    dead-end scenarios show has no other source. *)

Lemma share_eq (L : gset string) (v : Q) (ks : list string) :
  NoDup ks → L ≠ ∅ → (∀ p, p ∈ L → p ∈ ks) →
  Qnat (count_links L ks) * (v / Qnat (size L)) == v.
Proof.
  intros Hnd HL Hsub. rewrite count_links_eq by done.
  assert (0 < Qnat (size L)).
  { apply Qnat_pos. destruct (decide (size L = 0%nat)) as [Hz|]; [|lia].
    by apply size_empty_inv, leibniz_equiv in Hz. }
  field. lra.
Qed.

Lemma link_sum_mass_eq (entries : dict (gset string)) (x : string → Q)
    (ks : list string) :
  NoDup ks →
  (∀ i L, (i, L) ∈ entries → L ≠ ∅ ∧ ∀ p, p ∈ L → p ∈ ks) →
  Qsum (map (link_sum entries x) ks) == Qsum (map x (keys entries)).
Proof.
  intros Hnd. induction entries as [|[i L] entries IH]; intros Hlinks.
  - unfold link_sum. simpl. apply Qsum_map_zero.
  - rewrite (Qsum_map_eq _ (λ p, (if bool_decide (p ∈ L)
                                   then x i / Qnat (size L) else 0)
                                  + link_sum entries x p))
      by (intros p _; by rewrite link_sum_cons).
    rewrite Qsum_map_plus, Qsum_indicator.
    destruct (Hlinks i L) as [HL Hsub]; [apply elem_of_cons; by left|].
    rewrite share_eq by done.
    change (Qsum (map x (keys ((i, L) :: entries))))
      with (x i + Qsum (map x (keys entries))).
    apply Qplus_comp; [reflexivity|].
    apply IH. intros j M Hj. apply (Hlinks j M), elem_of_cons. by right.
Qed.

Lemma Qsum_map_const {A} (c : Q) (l : list A) :
  Qsum (map (λ _, c) l) == Qnat (length l) * c.
Proof.
  induction l as [|a l IH].
  - unfold Qsum. simpl. change (Qnat 0) with 0. ring.
  - simpl length. rewrite Qnat_S. unfold Qsum in *. simpl. rewrite IH. ring.
Qed.

Lemma update_fun_sum (corpus : dict (gset string)) (d : Q)
    (x : string → Q) :
  NoDup (keys corpus) → corpus ≠ [] →
  (∀ i L, (i, L) ∈ corpus → L ≠ ∅ ∧ ∀ p, p ∈ L → p ∈ keys corpus) →
  Qsum (map (update_fun corpus d x) (keys corpus))
  == (1 - d) + d * Qsum (map x (keys corpus)).
Proof.
  intros Hnd Hne Hlinks.
  rewrite (Qsum_map_eq _ (λ p, (1 - d) / Qnat (length corpus)
                               + d * link_sum corpus x p))
    by (intros p _; apply update_fun_Q).
  rewrite (Qsum_map_plus (λ _, (1 - d) / Qnat (length corpus))).
  rewrite Qsum_map_const, Qsum_map_scale, link_sum_mass_eq by done.
  unfold keys at 1. rewrite length_fmap.
  assert (0 < Qnat (length corpus))
    by (apply Qnat_pos; destruct corpus; simpl; [done|lia]).
  field. lra.
Qed.

Lemma iterate_fun_sum (k : nat) (corpus : dict (gset string)) (d : Q)
    (x : string → Q) :
  NoDup (keys corpus) → corpus ≠ [] →
  (∀ i L, (i, L) ∈ corpus → L ≠ ∅ ∧ ∀ p, p ∈ L → p ∈ keys corpus) →
  Qsum (map x (keys corpus)) == 1 →
  Qsum (map (iterate_fun k corpus d x) (keys corpus)) == 1.
Proof.
  intros Hnd Hne Hlinks. revert x. induction k as [|k IH]; intros x Hx;
    [done|].
  cbn [iterate_fun]. apply IH. rewrite update_fun_sum, Hx by done. ring.
Qed.

(** Whatever the loop returns from a table is a table of an iterate. *)
Lemma iterate_loop_table {F : Type} `{Arith F} (fuel : nat)
    (corpus : dict (gset string)) (d : F) (x : string → F) (r : dict F) :
  NoDup (keys corpus) →
  iterate_loop fuel corpus d (table x (keys corpus)) = Some (Ok r) →
  ∃ j, r = table (iterate_fun j corpus d x) (keys corpus).
Proof.
  intros Hnd. revert x. induction fuel as [|fuel IH]; intros x; [done|].
  rewrite iterate_loop_step by done.
  destruct (close_enough _ _ _).
  - intros [= <-]. by exists O.
  - intros [j ->]%IH. by exists (S j).
Qed.

(** In exact arithmetic, on a graph without dead ends whose links stay
    inside the corpus, the ranks [iterate_pagerank] returns sum to exactly
    [1].  In binary64 the sum is [1] up to rounding only. *)
Lemma iterate_pagerank_sum_no_dead_end (fuel : nat)
    (corpus : dict (gset string)) (d : Q) (r : dict Q) :
  NoDup (keys corpus) → corpus ≠ [] →
  (∀ i L, (i, L) ∈ corpus → L ≠ ∅ ∧ ∀ p, p ∈ L → p ∈ keys corpus) →
  iterate_pagerank fuel corpus d = Some (Ok r) →
  fsum (values r) == 1.
Proof.
  intros Hnd Hne Hlinks. unfold iterate_pagerank.
  rewrite initial_rank_table by done.
  intros [j ->]%iterate_loop_table; [|done].
  rewrite fsum_Qsum, values_tabulate. apply iterate_fun_sum; [done..|].
  rewrite Qsum_map_const. unfold keys. rewrite length_fmap.
  assert (0 < Qnat (length corpus))
    by (apply Qnat_pos; destruct corpus; simpl; [done|lia]).
  cbn [fdiv of_int Q_arith]. fold (Qnat (length corpus)).
  change (inject_Z 1) with 1. field. lra.
Qed.

End RankMass.

(** * The crawler *)

Section Crawl.
Local Open Scope string_scope.

Section KeyFacts.
Context {V : Type}.
Implicit Types (d : dict V) (k : string) (v : V).

Lemma keys_dict_set_present d k v :
  k ∈ keys d → keys (dict_set d k v) = keys d.
Proof.
  induction d as [|[k' w] d IH]; simpl.
  - by intros ?%elem_of_nil.
  - intros Hin. case_bool_decide as Hk; [done|]. simpl. f_equal.
    apply elem_of_cons in Hin as [->|Hin]; [done|]. by apply IH.
Qed.

Lemma keys_dict_set_fresh d k v :
  k ∉ keys d → keys (dict_set d k v) = (keys d ++ [k])%list.
Proof.
  intros Hk. rewrite dict_set_fresh by done. unfold keys.
  by rewrite fmap_app.
Qed.

Lemma elem_of_keys_dict_set d k v k' :
  k' ∈ keys (dict_set d k v) ↔ k' ∈ keys d ∨ k' = k.
Proof.
  destruct (decide (k ∈ keys d)) as [Hin|Hnin].
  - rewrite keys_dict_set_present by done. split; [by left|].
    by intros [?| ->].
  - rewrite keys_dict_set_fresh, elem_of_app, list_elem_of_singleton by done.
    done.
Qed.

(** Storing under a key never makes two entries with one key. *)
Lemma NoDup_keys_dict_set d k v :
  NoDup (keys d) → NoDup (keys (dict_set d k v)).
Proof.
  intros Hnd. destruct (decide (k ∈ keys d)) as [Hin|Hnin].
  - by rewrite keys_dict_set_present.
  - rewrite keys_dict_set_fresh by done. apply NoDup_app.
    split_and!; [done| |apply NoDup_singleton].
    intros x Hx ->%list_elem_of_singleton. done.
Qed.

Lemma dict_get_set_other d k v k' :
  k' ≠ k → dict_get (dict_set d k v) k' = dict_get d k'.
Proof.
  intros Hne. induction d as [|[k0 w] d IH]; simpl.
  - by rewrite bool_decide_eq_false_2.
  - case_bool_decide as Hk0; simpl.
    + subst k0. by rewrite !bool_decide_eq_false_2 by done.
    + case_bool_decide; [done|]. apply IH.
Qed.

Lemma dict_get_set_new d k v : dict_get (dict_set d k v) k = Ok v.
Proof.
  induction d as [|[k0 w] d IH]; simpl.
  - by rewrite bool_decide_eq_true_2.
  - case_bool_decide as Hk0; simpl.
    + by rewrite bool_decide_eq_true_2.
    + by rewrite bool_decide_eq_false_2.
Qed.

End KeyFacts.

Lemma links_of_get (pages : dict (gset string)) (f : string) :
  f ∈ keys pages → dict_get pages f = Ok (links_of pages f).
Proof.
  intros (L & HL)%dict_get_present. unfold links_of. by rewrite HL.
Qed.

(** A dictionary is the table of its own lookups. *)
Lemma dict_as_table (pages : dict (gset string)) :
  NoDup (keys pages) → pages = table (links_of pages) (keys pages).
Proof.
  induction pages as [|[f L] pages IH]; [done|].
  unfold keys. simpl. intros [Hf Hnd]%NoDup_cons. unfold links_of at 1.
  simpl. rewrite bool_decide_eq_true_2 by done. f_equal.
  rewrite (IH Hnd) at 1. apply table_ext. intros k Hk.
  unfold links_of. simpl. rewrite bool_decide_eq_false_2; [done|].
  by intros ->.
Qed.

Section CrawlFacts.
Variable findall : string → list string.

Lemma scan_keys (directory : list (string * string))
    (acc : dict (gset string)) (f : string) :
  f ∈ keys (foldl (scan_file findall) acc directory)
  ↔ f ∈ keys acc ∨ (f ∈ directory.*1 ∧ endswith f ".html" = true).
Proof.
  revert acc. induction directory as [|[g c] directory IH]; intros acc.
  - simpl. split; [by left|]. intros [?|[?%elem_of_nil ?]]; done.
  - cbn [foldl fmap list_fmap fst]. rewrite IH, elem_of_cons.
    unfold scan_file. destruct (endswith g ".html") eqn:Hg; simpl.
    + rewrite elem_of_keys_dict_set. split.
      * intros [[?| ->]|[? ?]]; [by left|right|right]; auto.
      * intros [?|[[-> |?] ?]]; [left; by left|left; by right|right]; auto.
    + split.
      * intros [?|[? ?]]; [by left|right]; auto.
      * intros [?|[[-> |?] ?]]; [by left|congruence|right]; auto.
Qed.

Lemma scan_NoDup (directory : list (string * string))
    (acc : dict (gset string)) :
  NoDup (keys acc) → NoDup (keys (foldl (scan_file findall) acc directory)).
Proof.
  revert acc. induction directory as [|[g c] directory IH]; intros acc Hnd;
    [done|].
  cbn [foldl]. apply IH. unfold scan_file.
  destruct (endswith g ".html"); simpl; [|done].
  by apply NoDup_keys_dict_set.
Qed.

Lemma scan_no_self (directory : list (string * string))
    (acc : dict (gset string)) :
  (∀ f L, dict_get acc f = Ok L → f ∉ L) →
  ∀ f L, dict_get (foldl (scan_file findall) acc directory) f = Ok L → f ∉ L.
Proof.
  revert acc. induction directory as [|[g c] directory IH]; intros acc Hacc;
    [done|].
  cbn [foldl]. apply IH. unfold scan_file.
  destruct (endswith g ".html"); simpl; [|done].
  intros f L. destruct (decide (f = g)) as [->|Hne].
  - rewrite dict_get_set_new. intros [= <-].
    intros [_ Hn]%elem_of_difference. apply Hn. by apply elem_of_singleton.
  - rewrite dict_get_set_other by done. apply Hacc.
Qed.

(** With pairwise distinct file names the first loop appends one entry
    per [.html] file, in listing order. *)
Lemma scan_table (directory : list (string * string))
    (acc : dict (gset string)) :
  NoDup (keys acc ++ directory.*1)%list →
  foldl (scan_file findall) acc directory
  = (acc ++ map (λ file, (file.1,
                          list_to_set (findall file.2) ∖ {[file.1]}))
                (filter (λ file, endswith file.1 ".html" = true)
                        directory))%list.
Proof.
  revert acc. induction directory as [|[g c] directory IH]; intros acc Hnd.
  - simpl. by rewrite app_nil_r.
  - cbn [foldl fmap list_fmap fst] in *.
    apply NoDup_app in Hnd as (Hacc & Hdis & [Hg Hdir]%NoDup_cons).
    assert (g ∉ keys acc) as Hfresh.
    { intros Hin. apply (Hdis g Hin). apply elem_of_cons. by left. }
    rewrite filter_cons. unfold scan_file at 2. cbn [fst snd].
    destruct (endswith g ".html") eqn:Hend; simpl.
    + rewrite dict_set_fresh by done.
      rewrite IH.
      * by rewrite <- app_assoc.
      * unfold keys in *. rewrite fmap_app. simpl. rewrite <- app_assoc.
        simpl. apply NoDup_app. split_and!; [done| |by apply NoDup_cons].
        intros x Hx Hx'. apply (Hdis x Hx). done.
    + apply IH. apply NoDup_app.
      split_and!; [done| |done].
      intros x Hx Hx'. apply (Hdis x Hx). apply elem_of_cons. by right.
Qed.

Lemma prune_links_table (K : list string) (g : string → gset string)
    (f : string) :
  NoDup K → f ∈ K →
  prune_links (table g K) f
  = Ok (table (fn_set g f (filter (λ link, link ∈ K) (g f))) K).
Proof.
  intros HK Hf. unfold prune_links. rewrite dict_get_tabulate by done.
  cbn [mbind result_bind]. by rewrite keys_tabulate, dict_set_table.
Qed.

(** The second loop (lines 42-46) on a table: every page of [files] loses
    the links that are not pages. *)
Lemma prune_table (K files : list string) (g : string → gset string) :
  NoDup K → NoDup files → (∀ f, f ∈ files → f ∈ K) →
  foldlM prune_links files (table g K)
  = Ok (table (λ f, if bool_decide (f ∈ files)
                    then filter (λ link, link ∈ K) (g f) else g f) K).
Proof.
  intros HK. revert g. induction files as [|f files IH];
    intros g Hfiles Hsub; [done|].
  apply NoDup_cons in Hfiles as [Hf Hfiles].
  assert (f ∈ K) as HfK by (apply Hsub, elem_of_cons; by left).
  cbn [foldlM]. rewrite prune_links_table by done. cbn [mbind result_bind].
  rewrite IH; [|done|intros f' Hf'; apply Hsub, elem_of_cons; by right].
  f_equal. apply table_ext. intros k Hk. unfold fn_set.
  destruct (decide (k = f)) as [->|Hne].
  - rewrite (bool_decide_eq_false_2 (f ∈ files)) by done.
    rewrite bool_decide_eq_true_2 by done.
    rewrite bool_decide_eq_true_2; [done|]. apply elem_of_cons; by left.
  - rewrite (bool_decide_eq_false_2 (k = f)) by done.
    destruct (decide (k ∈ files)) as [Hin|Hnin].
    + rewrite !bool_decide_eq_true_2; [done| |done].
      apply elem_of_cons; by right.
    + rewrite !bool_decide_eq_false_2; [done| |done].
      rewrite not_elem_of_cons. done.
Qed.

(** [crawl] in closed form. *)
Lemma crawl_table (directory : list (string * string)) :
  let pages := foldl (scan_file findall) [] directory in
  crawl findall directory
  = Ok (table (λ f, filter (λ link, link ∈ keys pages) (links_of pages f))
              (keys pages)).
Proof.
  intros pages. unfold crawl. fold pages.
  assert (NoDup (keys pages)) as Hnd by (apply scan_NoDup; constructor).
  rewrite (dict_as_table pages Hnd) at 2.
  rewrite prune_table by done.
  f_equal. apply table_ext. intros f Hf. by rewrite bool_decide_eq_true_2.
Qed.

End CrawlFacts.

Lemma dict_get_map_elem {A V} (h : string * A → V) (l : list (string * A))
    (f : string) (c : A) :
  NoDup l.*1 → (f, c) ∈ l →
  dict_get (map (λ file, (file.1, h file)) l) f = Ok (h (f, c)).
Proof.
  induction l as [|[g c'] l IH]; [by intros _ ?%elem_of_nil|].
  cbn [fmap list_fmap fst map]. intros [Hg Hnd]%NoDup_cons Hin.
  cbn [dict_get fst]. apply elem_of_cons in Hin as [[= <- <-]|Hin].
  - by rewrite bool_decide_eq_true_2.
  - rewrite bool_decide_eq_false_2; [by apply IH|].
    intros ->. apply Hg. apply list_elem_of_fmap. by exists (f, c).
Qed.

Lemma keys_html_entries {V} (h : string * string → V)
    (directory : list (string * string)) :
  keys (map (λ file, (file.1, h file))
            (filter (λ file, endswith file.1 ".html" = true) directory))
  = filter (λ f, endswith f ".html" = true) directory.*1.
Proof.
  unfold keys. induction directory as [|[g c] directory IH]; [done|].
  cbn [fmap list_fmap fst]. rewrite !filter_cons. cbn [fst].
  destruct (decide (endswith g ".html" = true)); [|done].
  cbn [map fmap list_fmap fst]. by f_equal.
Qed.

Lemma NoDup_html_files (directory : list (string * string)) :
  NoDup directory.*1 →
  NoDup (filter (λ file, endswith file.1 ".html" = true) directory).*1.
Proof.
  induction directory as [|[g c] directory IH]; [done|].
  cbn [fmap list_fmap fst]. rewrite filter_cons. cbn [fst].
  intros [Hg Hnd]%NoDup_cons.
  destruct (decide (endswith g ".html" = true)); [|by apply IH].
  cbn [fmap list_fmap fst]. apply NoDup_cons. split; [|by apply IH].
  intros (x & -> & Hx%list_elem_of_filter)%list_elem_of_fmap.
  apply Hg. apply list_elem_of_fmap. exists x. tauto.
Qed.

(** X1.  The corpus [crawl] returns, once every listed file has been read,
    has pairwise distinct keys, and its keys are exactly the listed file
    names that end in [.html]. *)
Theorem crawl_keys (findall : string → list string)
    (directory : list (string * string)) (pages : dict (gset string)) :
  crawl findall directory = Ok pages →
  NoDup (keys pages)
  ∧ ∀ f, f ∈ keys pages
         ↔ f ∈ directory.*1 ∧ endswith f ".html" = true.
Proof.
  rewrite crawl_table. intros [= <-]. rewrite keys_tabulate. split.
  - apply scan_NoDup. constructor.
  - intros f. rewrite scan_keys. split; [|by right].
    by intros [?%elem_of_nil|?].
Qed.

Lemma crawl_keys_witness :
  NoDup (keys ([("1.html", {["2.html"]}); ("2.html", ∅); ("3.html", ∅)]
               : dict (gset string)))
  ∧ ∀ f, f ∈ keys ([("1.html", {["2.html"]}); ("2.html", ∅); ("3.html", ∅)]
                   : dict (gset string))
         ↔ f ∈ small_site.*1 ∧ endswith f ".html" = true.
Proof.
  apply (crawl_keys whole_contents small_site
           ([("1.html", {["2.html"]}); ("2.html", ∅); ("3.html", ∅)]
            : dict (gset string))).
  by vm_compute.
Defined.

(** X2.  In the corpus [crawl] returns no page links to itself, and every
    link of a page is itself a page of the corpus (no dangling link). *)
Theorem crawl_links_closed (findall : string → list string)
    (directory : list (string * string)) (pages : dict (gset string)) :
  crawl findall directory = Ok pages →
  ∀ f L, dict_get pages f = Ok L →
    (f ∉ L) ∧ ∀ l, l ∈ L → l ∈ keys pages.
Proof.
  rewrite crawl_table. intros [= <-] f L HL.
  pose proof (dict_get_Ok_key _ _ _ HL) as Hf. rewrite keys_tabulate in Hf.
  rewrite dict_get_tabulate in HL by done. injection HL as <-.
  rewrite keys_tabulate. split.
  - intros [_ Hself]%elem_of_filter. revert Hself.
    apply (scan_no_self findall directory []); [done|].
    by apply links_of_get.
  - by intros l [Hl _]%elem_of_filter.
Qed.

Lemma crawl_links_closed_witness :
  ("1.html" ∉ ({["2.html"]} : gset string))
  ∧ ∀ l, l ∈ ({["2.html"]} : gset string) →
      l ∈ keys ([("1.html", {["2.html"]}); ("2.html", ∅); ("3.html", ∅)]
                : dict (gset string)).
Proof.
  apply (crawl_links_closed whole_contents small_site
           [("1.html", {["2.html"]}); ("2.html", ∅); ("3.html", ∅)]).
  - vm_compute. reflexivity.
  - vm_compute. reflexivity.
Defined.

(** X3.  When the listed file names are pairwise distinct, the keys of the
    corpus are the names ending in [.html] in listing order. *)
Theorem crawl_listing_order (findall : string → list string)
    (directory : list (string * string)) :
  NoDup directory.*1 →
  ∃ pages, crawl findall directory = Ok pages
    ∧ keys pages
      = filter (λ f, endswith f ".html" = true) directory.*1.
Proof.
  intros Hnd. eexists. split; [apply crawl_table|].
  rewrite keys_tabulate, (scan_table findall directory []) by done.
  rewrite app_nil_l. apply keys_html_entries.
Qed.

Lemma crawl_listing_order_witness :
  ∃ pages, crawl whole_contents small_site = Ok pages
    ∧ keys pages
      = filter (λ f, endswith f ".html" = true) small_site.*1.
Proof.
  apply (crawl_listing_order whole_contents small_site).
  apply (bool_decide_unpack _). vm_compute. exact I.
Defined.

(** X4.  When the listed file names are pairwise distinct, the links of a
    page [f] in the corpus are exactly the links found in the contents of
    [f] that are not [f] itself and name a listed [.html] file. *)
Theorem crawl_links (findall : string → list string)
    (directory : list (string * string)) (f c : string) :
  NoDup directory.*1 →
  (f, c) ∈ directory →
  endswith f ".html" = true →
  ∃ pages L, crawl findall directory = Ok pages
    ∧ dict_get pages f = Ok L
    ∧ ∀ l, l ∈ L
           ↔ l ∈ findall c ∧ l ≠ f
             ∧ l ∈ directory.*1 ∧ endswith l ".html" = true.
Proof.
  intros Hnd Hin Hend. eexists _, _. split; [apply crawl_table|].
  assert (f ∈ directory.*1) as Hf
    by (apply list_elem_of_fmap; by exists (f, c)).
  split.
  - apply dict_get_tabulate. apply scan_keys. by right.
  - intros l. rewrite elem_of_filter, scan_keys.
    unfold links_of. rewrite (scan_table findall directory []) by done.
    rewrite app_nil_l.
    rewrite (dict_get_map_elem
               (λ file, list_to_set (findall file.2) ∖ {[file.1]}) _ f c).
    + cbn [fst snd].
      rewrite elem_of_difference, elem_of_list_to_set, elem_of_singleton.
      split.
      * intros [[?%elem_of_nil|[? ?]] [? ?]]; done.
      * intros (? & ? & ? & ?). split; [by right|done].
    + by apply NoDup_html_files.
    + apply list_elem_of_filter. done.
Qed.

Lemma crawl_links_witness :
  ∃ pages L, crawl whole_contents small_site = Ok pages
    ∧ dict_get pages "1.html" = Ok L
    ∧ ∀ l, l ∈ L
           ↔ l ∈ whole_contents "2.html" ∧ l ≠ "1.html"
             ∧ l ∈ small_site.*1 ∧ endswith l ".html" = true.
Proof.
  apply (crawl_links whole_contents small_site "1.html" "2.html").
  - apply (bool_decide_unpack _). vm_compute. exact I.
  - apply (bool_decide_unpack _). vm_compute. exact I.
  - reflexivity.
Defined.

(** X5.  On a directory without any file name ending in [.html], [crawl]
    returns the empty corpus; handing it on as [main] does (lines 13-18),
    [sample_pagerank] raises [IndexError] and [iterate_pagerank] returns the
    empty mapping in its first turn. *)
Theorem no_html_file {F : Type} `{Arith F}
    (findall : string → list string) (directory : list (string * string))
    (rs : RandomSource F) (damping_factor : F) (n : Z) (fuel : nat) :
  (∀ f, f ∈ directory.*1 → endswith f ".html" = false) →
  crawl findall directory = Ok []
  ∧ (crawl findall directory
       ≫= λ corpus, sample_pagerank rs corpus damping_factor n)
    = Raise IndexError
  ∧ ∃ corpus, crawl findall directory = Ok corpus
      ∧ iterate_pagerank (S fuel) corpus damping_factor = Some (Ok []).
Proof.
  intros Hno.
  assert (crawl findall directory = Ok []) as ->; [|by eauto].
  rewrite crawl_table.
  assert (keys (foldl (scan_file findall) [] directory) = []) as ->; [|done].
  apply elem_of_nil_inv. intros f [?%elem_of_nil|[Hf Hend]]%scan_keys;
    [done|].
  rewrite (Hno f Hf) in Hend. done.
Qed.

Lemma no_html_file_witness :
  crawl whole_contents [("notes.txt", "1.html"); ("html", "x")] = Ok []
  ∧ (crawl whole_contents [("notes.txt", "1.html"); ("html", "x")]
       ≫= λ corpus, sample_pagerank first_draw_float corpus 0.85%float 10000)
    = Raise IndexError
  ∧ ∃ corpus,
      crawl whole_contents [("notes.txt", "1.html"); ("html", "x")]
        = Ok corpus
      ∧ iterate_pagerank 1 corpus 0.85%float = Some (Ok []).
Proof.
  apply (no_html_file whole_contents [("notes.txt", "1.html"); ("html", "x")]
           first_draw_float 0.85%float 10000 0).
  intros f Hf. cbn [fmap list_fmap fst] in Hf.
  apply elem_of_cons in Hf as [->|Hf]; [reflexivity|].
  apply elem_of_cons in Hf as [->|Hf]; [reflexivity|].
  by apply elem_of_nil in Hf.
Defined.

End Crawl.

(** * Weights of the transition model *)

Section Weights.
Local Open Scope Z_scope.

(** X6.  In either arithmetic, [transition_model] raises [KeyError] when
    the page is not a key of the corpus. *)
Theorem transition_model_missing_page {F : Type} `{Arith F}
    (corpus : dict (gset string)) (page : string) (damping_factor : F) :
  page ∉ keys corpus →
  transition_model corpus page damping_factor = Raise KeyError.
Proof.
  intros Hpage. unfold transition_model. by rewrite dict_get_absent.
Qed.

Lemma transition_model_missing_page_witness :
  transition_model dead_end_graph "Z" 0.85%float = Raise KeyError.
Proof.
  apply (transition_model_missing_page dead_end_graph "Z" 0.85%float).
  apply (bool_decide_unpack _). vm_compute. exact I.
Defined.

(** X10.  In either arithmetic, for a corpus with pairwise distinct keys
    and a page of it, [transition_model] raises nothing (no division by
    zero, no missing key) and returns a mapping with exactly the keys of
    the corpus, in the order of the corpus. *)
Theorem transition_model_keys {F : Type} `{Arith F}
    (corpus : dict (gset string)) (page : string) (damping_factor : F) :
  NoDup (keys corpus) →
  page ∈ keys corpus →
  ∃ pd, transition_model corpus page damping_factor = Ok pd
        ∧ keys pd = keys corpus.
Proof.
  intros Hnd (L & HL)%dict_get_present. eexists.
  split; [by apply transition_model_table|]. apply keys_tabulate.
Qed.

Lemma transition_model_keys_witness :
  ∃ pd, transition_model dead_end_graph "A" 0.85%float = Ok pd
        ∧ keys pd = keys dead_end_graph.
Proof.
  apply (transition_model_keys dead_end_graph "A" 0.85%float).
  - apply (bool_decide_unpack _). vm_compute. exact I.
  - apply (bool_decide_unpack _). vm_compute. exact I.
Defined.

(** X7.  In either arithmetic, on a page without outbound links
    [transition_model] gives every node of the corpus one and the same
    weight, [0 + (1 - damping_factor) / N]. *)
Theorem transition_model_dead_end_equal_weights {F : Type} `{Arith F}
    (corpus : dict (gset string)) (page : string) (damping_factor : F) :
  NoDup (keys corpus) →
  dict_get corpus page = Ok ∅ →
  ∃ pd, transition_model corpus page damping_factor = Ok pd
    ∧ ∀ q, q ∈ keys corpus →
        dict_get pd q
        = Ok (fadd (of_int 0)
                   (fdiv (fsub (of_int 1) damping_factor)
                         (of_int (Z.of_nat (length corpus))))).
Proof.
  intros Hnd Hget. eexists. split; [by apply transition_model_table|].
  intros q Hq. by rewrite dict_get_tabulate.
Qed.

Lemma transition_model_dead_end_equal_weights_witness :
  ∃ pd, transition_model dead_end_graph "B" 0.85%float = Ok pd
    ∧ ∀ q, q ∈ keys dead_end_graph →
        dict_get pd q
        = Ok (fadd (of_int 0)
                   (fdiv (fsub (of_int 1) 0.85%float)
                         (of_int (Z.of_nat (length dead_end_graph))))).
Proof.
  apply (transition_model_dead_end_equal_weights dead_end_graph "B").
  - apply (bool_decide_unpack _). vm_compute. exact I.
  - reflexivity.
Defined.

Local Open Scope Q_scope.



Lemma Qsum_map_component {A} (f : A → Q) (l : list A) (a : A) :
  (∀ p, 0 <= f p) → a ∈ l → f a <= Qsum (map f l).
Proof.
  intros Hf. induction l as [|b l IH]; [by intros ?%elem_of_nil|].
  change (Qsum (map f (b :: l))) with (f b + Qsum (map f l)).
  pose proof (Qsum_map_nonneg f l Hf). pose proof (Hf b).
  intros [->|Hin%IH]%elem_of_cons; lra.
Qed.

(** X9.  On a page with outbound links, all of them pages of the corpus,
    and a damping factor in [0, 1] (exact arithmetic): the values
    [transition_model] returns sum to exactly 1 and each lies in [0, 1];
    each is positive when the damping factor is below 1. *)
Theorem transition_model_linked_probabilities (corpus : dict (gset string))
    (page : string) (damping_factor : Q) (L : gset string) :
  NoDup (keys corpus) →
  dict_get corpus page = Ok L →
  L ≠ ∅ →
  (∀ p, p ∈ L → p ∈ keys corpus) →
  0 <= damping_factor <= 1 →
  ∃ pd, transition_model corpus page damping_factor = Ok pd
    ∧ fsum (values pd) == 1
    ∧ ∀ q v, dict_get pd q = Ok v →
        0 <= v <= 1 ∧ (damping_factor < 1 → 0 < v).
Proof.
  intros Hnd Hget HL Hsub [Hd0 Hd1]. revert Hd0 Hd1.
  generalize damping_factor as d. intros d Hd0 Hd1.
  eexists. split; [by apply transition_model_table|].
  pose proof (dict_get_nonempty _ _ _ Hget) as HN%Qnat_pos.
  assert (0 < Qnat (size L)) as HsL.
  { apply Qnat_pos. destruct (decide (size L = 0%nat)) as [Hz|]; [|lia].
    by apply size_empty_inv, leibniz_equiv in Hz. }
  assert (fsum (values (table (transition_value L (length corpus) d)
                              (keys corpus))) == 1) as Hsum.
  { rewrite fsum_Qsum, values_tabulate, Qsum_transition_table.
    rewrite count_links_eq by done. unfold keys. rewrite length_fmap.
    field. lra. }
  split; [done|].
  assert (∀ q, 0 <= transition_value L (length corpus) d q
               ∧ (d < 1 → 0 < transition_value L (length corpus) d q))
    as Hpos.
  { intros q. rewrite transition_value_Q.
    assert (0 <= (1 - d) / Qnat (length corpus)) as Hjump
      by (apply Qle_shift_div_l; lra).
    assert (d < 1 → 0 < (1 - d) / Qnat (length corpus)) as Hjump'
      by (intros ?; apply Qlt_shift_div_l; lra).
    assert (0 <= d / Qnat (size L)) as Hlink
      by (apply Qle_shift_div_l; lra).
    case_bool_decide;
      (split; [lra | intros Hlt; specialize (Hjump' Hlt);
                     first [assumption | lra]]). }
  intros q v Hv. pose proof (dict_get_Ok_key _ _ _ Hv) as Hq.
  rewrite keys_tabulate in Hq.
  rewrite dict_get_tabulate in Hv by done.
  assert (v = transition_value L (length corpus) d q) as -> by congruence.
  split; [split|]; [apply Hpos| |apply Hpos].
  rewrite <- Hsum, fsum_Qsum, values_tabulate.
  apply Qsum_map_component; [|done]. intros p. apply Hpos.
Qed.

Lemma transition_model_linked_probabilities_witness :
  ∃ pd, transition_model dead_end_graph "A" (85 # 100) = Ok pd
    ∧ fsum (values pd) == 1
    ∧ ∀ q v, dict_get pd q = Ok v →
        0 <= v <= 1 ∧ ((85 # 100) < 1 → 0 < v).
Proof.
  apply (transition_model_linked_probabilities dead_end_graph "A" (85 # 100)
           {["B"%string; "C"%string]}).
  - apply (bool_decide_unpack _). vm_compute. exact I.
  - reflexivity.
  - apply (bool_decide_unpack _). vm_compute. exact I.
  - intros p Hp. apply (bool_decide_unpack _).
    apply elem_of_union in Hp as [->%elem_of_singleton| ->%elem_of_singleton];
      vm_compute; exact I.
  - split; discriminate.
Defined.

End Weights.

(** * Visit counts of the sampling estimator *)

Section Visits.
Local Open Scope Z_scope.

Section DrawFacts.
Context {F : Type} `{Arith F}.




Lemma foldlM_map {A B C} (f : A → B → result A) (h : C → B) (l : list C)
    (a : A) :
  foldlM f (map h l) a = foldlM (λ a x, f a (h x)) l a.
Proof.
  revert a. induction l as [|x l IH]; intros a; simpl; [done|].
  destruct (f a (h x)); simpl; [apply IH|done].
Qed.

End DrawFacts.

Lemma foldl_Zadd_shift (l : list Z) (a : Z) : foldl Z.add a l = a + Zsum l.
Proof.
  unfold Zsum. revert a. induction l as [|x l IH]; intros a; simpl; [lia|].
  rewrite IH. lia.
Qed.

Lemma Zsum_zero {A} (l : list A) : Zsum (map (λ _, 0) l) = 0.
Proof. unfold Zsum. induction l as [|a l IH]; simpl; lia. Qed.

Lemma Zsum_fn_set (c : string → Z) (p : string) (v : Z) (K : list string) :
  NoDup K → p ∈ K →
  Zsum (map (fn_set c p v) K) = Zsum (map c K) - c p + v.
Proof.
  unfold Zsum. induction K as [|k K IH]; [by intros _ ?%elem_of_nil|].
  intros [Hk Hnd]%NoDup_cons Hin. cbn [map foldr]. unfold fn_set at 1.
  case_bool_decide as Hkp.
  - subst k.
    assert (map (fn_set c p v) K = map c K) as ->; [|lia].
    apply map_ext_in. intros k Hk'%list_elem_of_In. unfold fn_set.
    rewrite bool_decide_eq_false_2; [done|]. by intros ->.
  - apply elem_of_cons in Hin as [->|Hin]; [done|]. rewrite IH by done. lia.
Qed.


Local Open Scope Q_scope.




Section Walk.
Variable corpus : dict (gset string).
Variable d : Q.
Variable rs : RandomSource Q.
Hypothesis corpus_NoDup : NoDup (keys corpus).
Hypothesis d_range : 0 <= d < 1.





End Walk.

Section AnyWalk.
Context {F : Type} `{Arith F}.
Variable corpus : dict (gset string).
Variable d : F.
Variable rs : RandomSource F.
Hypothesis corpus_NoDup : NoDup (keys corpus).

(** What [random.choices] returns is a member of the population. *)
Lemma random_choices_Ok {A} (k : nat) (population : list A)
    (weights : list F) (x : A) (k' : nat) :
  random_choices rs k population weights = Ok (x, k') →
  x ∈ population ∧ k' = S k.
Proof.
  unfold random_choices.
  destruct (negb _); [done|].
  destruct (last _) as [t|]; [|done].
  destruct (fle _ _); [done|].
  destruct (negb _); [done|].
  destruct (population !! _) as [y|] eqn:Hy; [|done].
  intros [= -> <-]. split; [|done]. by eapply list_elem_of_lookup_2.
Qed.

(** One round of the walk that raises nothing: the counter of the current
    page goes up by one and the next page is a page of the corpus. *)
Lemma sample_step_Ok (c : string → Z) (cur : string) (k : nat)
    (st : dict Z * string * nat) :
  cur ∈ keys corpus →
  sample_step rs corpus d (table c (keys corpus), cur, k) = Ok st →
  ∃ next,
    st = (table (fn_set c cur (c cur + 1)%Z) (keys corpus), next, S k)
    ∧ next ∈ keys corpus.
Proof.
  intros Hcur. unfold sample_step.
  rewrite dict_get_tabulate by done. cbn [mbind result_bind].
  rewrite dict_set_table by done.
  destruct (dict_get_present corpus cur Hcur) as [L HL].
  rewrite (transition_model_table corpus cur d L) by done.
  cbn [mbind result_bind]. rewrite keys_tabulate, values_tabulate.
  destruct (random_choices rs k (keys corpus) _) as [[next k']|] eqn:Hdraw;
    [|done].
  apply random_choices_Ok in Hdraw as [Hnext ->].
  cbn [mbind result_bind]. intros [= <-]. by exists next.
Qed.

(** The loop of lines 96-100: every round counts one visit. *)
Lemma sample_loop_Ok (rounds : nat) (c : string → Z) (cur : string)
    (k : nat) (st : dict Z * string * nat) :
  cur ∈ keys corpus →
  sample_loop rounds rs corpus d (table c (keys corpus), cur, k) = Ok st →
  ∃ c' cur' k',
    st = (table c' (keys corpus), cur', k')
    ∧ (∀ p, (c p ≤ c' p)%Z)
    ∧ Zsum (map c' (keys corpus))
      = (Zsum (map c (keys corpus)) + Z.of_nat rounds)%Z.
Proof.
  revert c cur k. induction rounds as [|rounds IH]; intros c cur k Hcur.
  - intros [= <-]. exists c, cur, k. split_and!; [done|intros; lia|lia].
  - cbn [sample_loop].
    destruct (sample_step _ _ _ _) as [st1|] eqn:Hstep; [|done].
    apply sample_step_Ok in Hstep as (next & -> & Hnext); [|done].
    cbn [mbind result_bind]. intros Hloop.
    apply IH in Hloop as (c' & cur' & k' & -> & Hle & Hsum); [|done].
    exists c', cur', k'. split_and!; [done| |].
    + intros p. specialize (Hle p). unfold fn_set in Hle.
      case_bool_decide; [subst p|]; lia.
    + rewrite Hsum, Zsum_fn_set by done. lia.
Qed.

End AnyWalk.

(** X11.  Whenever [sample_pagerank] returns a mapping on a corpus with
    pairwise distinct keys, in either arithmetic and whatever the damping
    factor and the random source: the number of samples [n] is positive,
    and the mapping gives every page of the corpus, in the order of the
    corpus, its visit count divided by [n]; the visit counts are
    non-negative integers that add up to exactly [n].  The quotients
    themselves are rounded: in binary64 they need not add up to [1]. *)
Theorem sample_pagerank_visit_counts {F : Type} `{Arith F}
    (rs : RandomSource F) (corpus : dict (gset string))
    (damping_factor : F) (n : Z) (r : dict F) :
  NoDup (keys corpus) →
  sample_pagerank rs corpus damping_factor n = Ok r →
  (0 < n)%Z
  ∧ ∃ c : string → Z,
      r = table (λ p, fdiv (of_int (c p)) (of_int n)) (keys corpus)
      ∧ (∀ p, (0 ≤ c p)%Z)
      ∧ Zsum (map c (keys corpus)) = n.
Proof.
  intros Hnd. unfold sample_pagerank.
  rewrite (dict_comp_tabulate _ (λ _, 0%Z)) by done.
  cbn [mbind result_bind].
  destruct (random_choice rs O (keys corpus)) as [[start k0]|] eqn:Hstart;
    [|done].
  assert (start ∈ keys corpus) as Hin.
  { unfold random_choice in Hstart.
    destruct (keys corpus !! _) as [x|] eqn:Hx; [|done].
    injection Hstart as <- _. by eapply list_elem_of_lookup_2. }
  cbn [mbind result_bind].
  destruct (sample_loop _ _ _ _ _) as [st|] eqn:Hloop; [|done].
  apply sample_loop_Ok in Hloop as (c & cur & k & -> & Hle & Hsum);
    [|done..].
  cbn [mbind result_bind].
  rewrite Zsum_zero, Z.add_0_l in Hsum.
  rewrite values_tabulate, foldl_Zadd_shift, Z.add_0_l, Hsum.
  unfold table at 1. rewrite foldlM_map.
  destruct (decide (0 < n)%Z) as [Hn|Hn].
  - rewrite Z2Nat.id in * by lia.
    rewrite (foldlM_dict_set _ (λ p, fdiv (of_int (c p)) (of_int n)));
      [|done|].
    + intros [= <-]. split; [done|]. by exists c.
    + intros d' p Hp. unfold int_truediv, div_int.
      by rewrite bool_decide_eq_false_2 by lia.
  - replace (Z.to_nat n) with O by lia.
    destruct (keys corpus) as [|p ks]; [by apply elem_of_nil in Hin|].
    done.
Qed.

Lemma sample_pagerank_visit_counts_witness :
  (0 < 4)%Z
  ∧ ∃ c : string → Z,
      [("A", 0.25%float); ("B", 0.75%float); ("C", 0%float)]
      = table (λ p, fdiv (of_int (c p)) (of_int 4)) (keys dead_end_graph)
      ∧ (∀ p, (0 ≤ c p)%Z)
      ∧ Zsum (map c (keys dead_end_graph)) = 4%Z.
Proof.
  apply (sample_pagerank_visit_counts first_draw_float dead_end_graph
           0.85%float 4).
  - apply (bool_decide_unpack _). vm_compute. exact I.
  - by vm_compute.
Defined.



Lemma sample_pagerank_no_rounds_witness :
  sample_pagerank first_draw_float three_cycle 0.85%float (-1)
  = Raise ZeroDivisionError.
Proof.
  apply (sample_pagerank_no_rounds first_draw_float three_cycle
           0.85%float (-1)).
  - discriminate.
  - lia.
Defined.

End Visits.

(** * Keys and entries of the iterative estimator *)

Section Ranks.
Local Open Scope Z_scope.

(** The loop on a table either is still running or has returned the table
    of an iterate: it raises nothing. *)
Lemma iterate_loop_outcome {F : Type} `{Arith F} (fuel : nat)
    (corpus : dict (gset string)) (d : F) (x : string → F) :
  NoDup (keys corpus) →
  iterate_loop fuel corpus d (table x (keys corpus)) = None
  ∨ ∃ j, iterate_loop fuel corpus d (table x (keys corpus))
         = Some (Ok (table (iterate_fun j corpus d x) (keys corpus))).
Proof.
  intros Hnd. revert x. induction fuel as [|fuel IH]; intros x; [by left|].
  rewrite iterate_loop_step by done.
  destruct (close_enough _ _ _).
  - right. by exists O.
  - destruct (IH (update_fun corpus d x)) as [->|[j ->]]; [by left|].
    right. by exists (S j).
Qed.

(** X13.  In either arithmetic, on a corpus with pairwise distinct keys
    [iterate_pagerank] raises nothing (no missing key, no division by
    zero): as long as it has not returned it is still iterating, and the
    mapping it returns has exactly the keys of the corpus, in the order of
    the corpus. *)
Theorem iterate_pagerank_keys {F : Type} `{Arith F} (fuel : nat)
    (corpus : dict (gset string)) (damping_factor : F) :
  NoDup (keys corpus) →
  iterate_pagerank fuel corpus damping_factor = None
  ∨ ∃ r, iterate_pagerank fuel corpus damping_factor = Some (Ok r)
         ∧ keys r = keys corpus.
Proof.
  intros Hnd. unfold iterate_pagerank. rewrite initial_rank_table by done.
  destruct (iterate_loop_outcome fuel corpus damping_factor
              (λ _, fdiv (of_int 1) (of_int (Z.of_nat (length corpus))))
              Hnd) as [->|[j ->]]; [by left|].
  right. eexists. split; [done|]. apply keys_tabulate.
Qed.

Lemma iterate_pagerank_keys_witness :
  iterate_pagerank 100 dead_end_graph 0.85%float = None
  ∨ ∃ r, iterate_pagerank 100 dead_end_graph 0.85%float = Some (Ok r)
         ∧ keys r = keys dead_end_graph.
Proof.
  apply (iterate_pagerank_keys 100 dead_end_graph 0.85%float).
  apply (bool_decide_unpack _). vm_compute. exact I.
Defined.

Lemma foldl_pointwise {A B} (f g : A → B → A) (l : list B) (a : A) :
  (∀ a b, f a b = g a b) → foldl f a l = foldl g a l.
Proof.
  intros Hfg. revert a. induction l as [|b l IH]; intros a; simpl; [done|].
  by rewrite Hfg, IH.
Qed.

(** X16.  One round of the update, in either arithmetic: on a corpus with
    pairwise distinct keys and a mapping [page_rank] that has an entry for
    every page, [update_rank] raises nothing (no missing key, no division
    by zero), the mapping it builds has the keys of the corpus in the
    order of the corpus, and the entry of a page [p] is the teleport share
    [(1 - d) / N] to which the shares [d * page_rank[i] / len(Lnks)] of
    the pages [i] whose links contain [p] are added one by one in the
    order of the corpus.  Pages whose links do not contain [p], dead ends
    among them, add nothing. *)
Theorem update_rank_entries {F : Type} `{Arith F}
    (corpus : dict (gset string)) (damping_factor : F)
    (page_rank : dict F) :
  NoDup (keys corpus) →
  (∀ i, i ∈ keys corpus → i ∈ keys page_rank) →
  ∃ new,
    update_rank corpus damping_factor page_rank = Ok new
    ∧ keys new = keys corpus
    ∧ ∀ p, p ∈ keys corpus →
        dict_get new p
        = Ok (foldl
                (λ acc e,
                   if bool_decide (p ∈ e.2)
                   then fadd acc
                          (fmul damping_factor
                             (fdiv (rank_of page_rank e.1)
                                   (of_int (Z.of_nat (size e.2)))))
                   else acc)
                (fdiv (fsub (of_int 1) damping_factor)
                      (of_int (Z.of_nat (length corpus))))
                corpus).
Proof.
  intros Hnd Hkeys. eexists. split; [by apply update_rank_table|].
  split; [apply keys_tabulate|]. intros p Hp.
  rewrite dict_get_tabulate by done. f_equal.
  unfold update_value, accumulate_links.
  apply foldl_pointwise. by intros acc [i L].
Qed.

Lemma update_rank_entries_witness :
  ∃ new,
    update_rank dead_end_graph 0.85%float
      [("A", 0.5%float); ("B", 0.25%float); ("C", 0.25%float)] = Ok new
    ∧ keys new = keys dead_end_graph
    ∧ ∀ p, p ∈ keys dead_end_graph →
        dict_get new p
        = Ok (foldl
                (λ acc e,
                   if bool_decide (p ∈ e.2)
                   then fadd acc
                          (fmul 0.85%float
                             (fdiv (rank_of
                                      [("A", 0.5%float); ("B", 0.25%float);
                                       ("C", 0.25%float)] e.1)
                                   (of_int (Z.of_nat (size e.2)))))
                   else acc)
                (fdiv (fsub (of_int 1) 0.85%float)
                      (of_int (Z.of_nat (length dead_end_graph))))
                dead_end_graph).
Proof.
  apply (update_rank_entries dead_end_graph 0.85%float
           [("A", 0.5%float); ("B", 0.25%float); ("C", 0.25%float)]).
  - apply (bool_decide_unpack _). vm_compute. exact I.
  - intros i Hi. exact Hi.
Defined.

End Ranks.
